(** * lightning_app.utilities.cli_helpers

    A shallow embedding of [src/lightning_app/utilities/cli_helpers.py]:

    - [_format_input_env_variables], the parser of [NAME=value] entries
      into a dictionary, and
    - [_retrieve_application_url_and_available_commands], the endpoint
      resolver (called [resolve] in the specification), which talks to
      HTTP endpoints and to the directory service.

    Python strings are modelled as [string] (the UTF-8 bytes of the text;
    every character the code inspects is ASCII, so a test on a byte is a
    test on the code point), dictionaries as [gmap string string], raised
    exceptions as the left summand of a sum. *)

From Stdlib Require Import ZArith Ascii String DecimalString.
From stdpp Require Import base option list strings gmap fin_maps.

Local Open Scope string_scope.

(** ** Exceptions *)

(** The exception objects the module raises or lets through, by class.
    [ConnectionError] is [requests.exceptions.ConnectionError] (and its
    subclasses); [JSONDecodeError] is what [resp.json()] raises on a body
    that is not JSON; [OtherError] is any other exception a collaborator
    may raise. *)
Inductive exn : Type :=
| Exception (msg : string)
| ValueError (msg : string)
| AssertionError
| ConnectionError
| JSONDecodeError
| OtherError (what : string).

(** The outcome of a call: the exception it raised, or its value. *)
Definition result (A : Type) : Type := (exn + A)%type.

(** ** Python string primitives *)

(** Truthiness of a [str]: the empty string is falsy. *)
Definition truthy (s : string) : bool :=
  match s with
  | EmptyString => false
  | String _ _ => true
  end.

(** [s.split(sep)] for a one-character separator: every occurrence of the
    separator cuts, so the result has one more part than there are
    separators in [s] (and [''.split('=')] is [['']]). *)
Fixpoint str_split (sep : ascii) (s : string) : list string :=
  match s with
  | EmptyString => [EmptyString]
  | String c s' =>
      if Ascii.eqb c sep then EmptyString :: str_split sep s'
      else match str_split sep s' with
           | [] => [String c EmptyString]
           | p :: ps => String c p :: ps
           end
  end.

(** The character class [[0-9a-zA-Z_]]. *)
Definition name_char (c : ascii) : bool :=
  let n := nat_of_ascii c in
  ((48 <=? n)%nat && (n <=? 57)%nat)        (* 0-9 *)
  || ((97 <=? n)%nat && (n <=? 122)%nat)    (* a-z *)
  || ((65 <=? n)%nat && (n <=? 90)%nat)     (* A-Z *)
  || (n =? 95)%nat.                         (* _ *)

(** The longest prefix of [s] made of characters of the class. *)
Fixpoint span_class (cls : ascii -> bool) (s : string) : string :=
  match s with
  | EmptyString => EmptyString
  | String c s' => if cls c then String c (span_class cls s') else EmptyString
  end.

(** [re.match(r"[cls]+", s)]: the pattern is anchored at the start of [s]
    only; [+] is greedy and needs at least one character.  The result is
    the matched text, or [None] when there is no match. *)
Definition re_match_plus (cls : ascii -> bool) (s : string) : option string :=
  match span_class cls s with
  | EmptyString => None
  | m => Some m
  end.

(** The number of occurrences of a character in a string. *)
Fixpoint count_char (c : ascii) (s : string) : nat :=
  match s with
  | EmptyString => 0
  | String c' s' => (if Ascii.eqb c' c then 1 else 0) + count_char c s'
  end.

(** [s.replace(old, new)]: the occurrences of [old] are found from left
    to right without overlap and each is replaced by [new].  [skip]
    counts the characters of a found occurrence still to pass over.  (For
    an empty [old], [new] is put before every character and at the end.) *)
Fixpoint replace_from (old new : string) (skip : nat) (s : string) : string :=
  match skip with
  | S k =>
      match s with
      | EmptyString => EmptyString
      | String _ s' => replace_from old new k s'
      end
  | O =>
      match s with
      | EmptyString =>
          match old with
          | EmptyString => new
          | String _ _ => EmptyString
          end
      | String c s' =>
          if String.prefix old s then
            match old with
            | EmptyString => new ++ String c (replace_from old new 0 s')
            | String _ old' => new ++ replace_from old new (String.length old') s'
            end
          else String c (replace_from old new 0 s')
      end
  end.

Definition str_replace (old new s : string) : string := replace_from old new 0 s.

(** ** [_format_input_env_variables] *)

(** The body of the [for] loop: one entry [env_str], the dictionary built
    so far. *)
Definition format_entry (env_vars_dict : gmap string string) (env_str : string)
  : result (gmap string string) :=
  let var_parts := str_split "=" env_str in
  match var_parts with
  | [var_name; value] =>
      if negb (truthy var_name) then
        inl (Exception ("Invalid format of environment variable " ++ env_str
                        ++ ", please ensure that the variable is in the format e.g. foo=bar."))
      else if bool_decide (is_Some (env_vars_dict !! var_name)) then
        inl (Exception ("Environment variable '" ++ var_name
                        ++ "' is duplicated. Please only include it once."))
      else match re_match_plus name_char var_name with
           | None =>
               inl (ValueError ("Environment variable '" ++ var_name
                      ++ "' is not a valid name. It is only allowed to contain digits 0-9, "
                      ++ "letters A-Z, a-z and _ (underscore)."))
           | Some _ => inr (<[var_name := value]> env_vars_dict)
           end
  | _ =>
      inl (Exception ("Invalid format of environment variable " ++ env_str
                      ++ ", please ensure that the variable is in the format e.g. foo=bar."))
  end.

(** The loop over [env_list], threading the dictionary. *)
Fixpoint format_loop (env_vars_dict : gmap string string) (env_list : list string)
  : result (gmap string string) :=
  match env_list with
  | [] => inr env_vars_dict
  | env_str :: rest =>
      match format_entry env_vars_dict env_str with
      | inl e => inl e
      | inr d => format_loop d rest
      end
  end.

Definition _format_input_env_variables (env_list : list string)
  : result (gmap string string) :=
  format_loop ∅ env_list.

(** The messages of the two format errors. *)
Definition invalid_format_msg (env_str : string) : string :=
  "Invalid format of environment variable " ++ env_str
  ++ ", please ensure that the variable is in the format e.g. foo=bar.".

Definition invalid_name_msg (var_name : string) : string :=
  "Environment variable '" ++ var_name
  ++ "' is not a valid name. It is only allowed to contain digits 0-9, "
  ++ "letters A-Z, a-z and _ (underscore).".

(** The name of an entry is the first part of its split. *)
Definition var_name_of (env_str : string) : string :=
  hd "" (str_split "=" env_str).

(** An entry the function accepts on its own: two parts, and a name that
    starts with a character of the class (so the name is not empty). *)
Definition well_formed (env_str : string) : Prop :=
  exists c rest value,
    str_split "=" env_str = [String c rest; value] /\ name_char c = true.

(** The message of the duplicate error. *)
Definition duplicated_msg (var_name : string) : string :=
  "Environment variable '" ++ var_name
  ++ "' is duplicated. Please only include it once.".

(** The entry that spells a binding, in the format of the docstring:
    [foo=bar]. *)
Definition entry_of (binding : string * string) : string :=
  binding.1 ++ "=" ++ binding.2.

(** ** Data read from the collaborators *)

(** An application instance as the directory service lists it; the code
    reads [lightningapp.id], [lightningapp.name] and
    [lightningapp.status.url]. *)
Module Lightningapp.
Record Status : Type := { url : string }.
Record t : Type := { id : string; name : string; status : Status }.
End Lightningapp.

(** The object [_get_project] returns; the code reads [project.project_id]. *)
Record Project : Type := { project_id : string }.

(** Truthiness of an [Optional[str]]: [None] and [''] are falsy. *)
Definition truthy_opt (o : option string) : bool :=
  match o with
  | None => false
  | Some s => truthy s
  end.

(** [s == o] for a [str] [s] and an [Optional[str]] [o]: exact comparison,
    and a string never equals [None]. *)
Definition str_eq_opt (s : string) (o : option string) : bool :=
  match o with
  | None => false
  | Some s' => String.eqb s s'
  end.

(** [str(n)] for an [int]. *)
Definition str_int (n : Z) : string := NilZero.string_of_int (Z.to_int n).

Definition _is_url (id : option string) : bool :=
  match id with
  | Some id => String.prefix "https://" id || String.prefix "http://" id
  | None => false
  end.

Section Model.

(** A parsed JSON value, opaque to this module, and the text [str()]
    gives for it inside an f-string. *)
Variable Json : Type.
Variable str_json : Json -> string.

(** [repr()] of a [str], as an f-string prints the elements of a list. *)
Variable repr_str : string -> string.

(** The handle [LightningClient()] returns. *)
Variable Client : Type.

(** [lightning_app.core.constants.APP_SERVER_PORT]. *)
Variable APP_SERVER_PORT : Z.

(** [str()] of a list of strings: [['foo', 'bar']]. *)
Definition str_list (l : list string) : string :=
  "[" ++ String.concat ", " (map repr_str l) ++ "]".

(** What the code reads from the object [requests.get] returns:
    [resp.status_code], and [resp.json()], which is [None] here when the
    body is not JSON (the call then raises). *)
Record Response : Type := { status_code : Z; json : option Json }.

(** *** Programs over the external calls

    The resolver is a sequence of calls to its collaborators, each of
    which answers with a value or raises.  A program is the tree of those
    calls: the collaborator's answer selects the continuation. *)
Inductive prog (A : Type) : Type :=
| Ret (a : A)
| Raise (e : exn)
| Get (u : string) (k : result Response -> prog A)
| NewClient (k : result Client -> prog A)
| GetProject (c : Client) (k : result Project -> prog A)
| ListInstances (c : Client) (pid : string)
                (k : result (list Lightningapp.t) -> prog A).

Arguments Ret {A} a.
Arguments Raise {A} e.
Arguments Get {A} u k.
Arguments NewClient {A} k.
Arguments GetProject {A} c k.
Arguments ListInstances {A} c pid k.

Fixpoint bind {A B : Type} (m : prog A) (f : A -> prog B) : prog B :=
  match m with
  | Ret a => f a
  | Raise e => Raise e
  | Get u k => Get u (fun r => bind (k r) f)
  | NewClient k => NewClient (fun r => bind (k r) f)
  | GetProject c k => GetProject c (fun r => bind (k r) f)
  | ListInstances c pid k => ListInstances c pid (fun r => bind (k r) f)
  end.

#[export] Instance prog_ret : MRet prog := @Ret.
#[export] Instance prog_bind : MBind prog := fun A B f m => bind m f.

(** [try: body except cls: handler]: [handler e] is [Some h] when the
    raised [e] is an instance of the caught class. *)
Fixpoint try_except {A : Type} (body : prog A) (handler : exn -> option (prog A))
  : prog A :=
  match body with
  | Ret a => Ret a
  | Raise e => match handler e with
               | Some h => h
               | None => Raise e
               end
  | Get u k => Get u (fun r => try_except (k r) handler)
  | NewClient k => NewClient (fun r => try_except (k r) handler)
  | GetProject c k => GetProject c (fun r => try_except (k r) handler)
  | ListInstances c pid k =>
      ListInstances c pid (fun r => try_except (k r) handler)
  end.

(** A call re-raises what the collaborator raised. *)
Definition returned {A : Type} (r : result A) : prog A :=
  match r with
  | inl e => Raise e
  | inr a => Ret a
  end.

(** [requests.get(u)] *)
Definition requests_get (u : string) : prog Response := Get u returned.

(** [LightningClient()] *)
Definition LightningClient : prog Client := NewClient returned.

(** [_get_project(client)] *)
Definition _get_project (client : Client) : prog Project :=
  GetProject client returned.

(** [client.lightningapp_instance_service_list_lightningapp_instances(pid)],
    then [.lightningapps] of what it returns. *)
Definition lightningapp_instance_service_list_lightningapp_instances
    (client : Client) (pid : string) : prog (list Lightningapp.t) :=
  ListInstances client pid returned.

(** [resp.json()] *)
Definition resp_json (resp : Response) : prog Json :=
  match json resp with
  | Some body => Ret body
  | None => Raise JSONDecodeError
  end.

(** *** [_retrieve_application_url_and_available_commands] *)

(** The block the source repeats for each of its three strategies (lines
    60-63, 71-74 and 93-96): GET [url + "/api/v1/commands"], raise unless
    the status is 200, return [url, resp.json()].  The f-string of the
    raised message evaluates [resp.json()] before the exception is built. *)
Definition get_commands (url : string) : prog (option string * option Json) :=
  resp ← requests_get (url ++ "/api/v1/commands");
  if negb (status_code resp =? 200)%Z then
    found ← resp_json resp;
    Raise (Exception ("The server didn't process the request properly. Found "
                      ++ str_json found))
  else
    body ← resp_json resp;
    Ret (Some url, Some body).

(** Strategy 2, the [try] statement of lines 69-76.  It either returns
    from the function ([inl] of the returned pair) or falls out of the
    [except] clause with [failed_locally = True] ([inr true]). *)
Definition local_attempt : prog (option string * option Json + bool) :=
  try_except
    (let url := "http://localhost:" ++ str_int APP_SERVER_PORT in
     v ← get_commands url;
     Ret (inl v))
    (fun e => match e with
              | ConnectionError => Some (Ret (inr true))
              | _ => None
              end).

(** The [for] loop of lines 89-96: [Some v] when the loop returned [v],
    [None] when it ran to its end. *)
Fixpoint scan (app_id_or_name_or_url : option string)
    (lightningapps : list Lightningapp.t)
  : prog (option (option string * option Json)) :=
  match lightningapps with
  | [] => Ret None
  | lightningapp :: rest =>
      if str_eq_opt (Lightningapp.id lightningapp) app_id_or_name_or_url
         || str_eq_opt (Lightningapp.name lightningapp) app_id_or_name_or_url
      then
        if String.eqb (Lightningapp.url (Lightningapp.status lightningapp)) ""
        then Raise (Exception "The application is starting. Try in a few moments.")
        else
          v ← get_commands (Lightningapp.url (Lightningapp.status lightningapp));
          Ret (Some v)
      else scan app_id_or_name_or_url rest
  end.

Definition _retrieve_application_url_and_available_commands
    (app_id_or_name_or_url : option string)
  : prog (option string * option Json) :=
  if _is_url app_id_or_name_or_url then
    let url := app_id_or_name_or_url in
    match url with
    | Some url =>
        if truthy url then get_commands url
        else Raise AssertionError                       (* assert url *)
    | None => Raise AssertionError                      (* assert url *)
    end
  else
    (* 2: If no identifier has been provided, evaluate the local application *)
    local ← match app_id_or_name_or_url with
            | None => local_attempt
            | Some _ => Ret (inr false)
            end;
    match local with
    | inl v => Ret v
    | inr failed_locally =>
        (* 3: If an identified was provided or the local evaluation has
           failed, evaluate the cloud. *)
        if truthy_opt app_id_or_name_or_url || failed_locally then
          client ← LightningClient;
          project ← _get_project client;
          lightningapps ←
            lightningapp_instance_service_list_lightningapp_instances
              client (project_id project);
          let lightningapp_names := map Lightningapp.name lightningapps in
          if negb (truthy_opt app_id_or_name_or_url) then
            Raise (Exception
                     ("Provide an application name, id or url with --app_id=X. Found "
                      ++ str_list lightningapp_names))
          else
            found ← scan app_id_or_name_or_url lightningapps;
            match found with
            | Some v => Ret v
            | None => Ret (None, None)
            end
        else Ret (None, None)
    end.

(** *** Running a program against the outside world *)

(** What was asked of the collaborators, with what each answered. *)
Inductive event : Type :=
| EvGet (u : string) (r : result Response)
| EvNewClient (r : result Client)
| EvGetProject (c : Client) (r : result Project)
| EvListInstances (c : Client) (pid : string) (r : result (list Lightningapp.t)).

(** The request of an event, without the answer. *)
Inductive request : Type :=
| ReqGet (u : string)
| ReqNewClient
| ReqGetProject (c : Client)
| ReqListInstances (c : Client) (pid : string).

(** The answer of an event, without the request. *)
Inductive answer : Type :=
| AnsGet (r : result Response)
| AnsNewClient (r : result Client)
| AnsGetProject (r : result Project)
| AnsListInstances (r : result (list Lightningapp.t)).

Definition request_of (ev : event) : request :=
  match ev with
  | EvGet u _ => ReqGet u
  | EvNewClient _ => ReqNewClient
  | EvGetProject c _ => ReqGetProject c
  | EvListInstances c pid _ => ReqListInstances c pid
  end.

Definition answer_of (ev : event) : answer :=
  match ev with
  | EvGet _ r => AnsGet r
  | EvNewClient r => AnsNewClient r
  | EvGetProject _ r => AnsGetProject r
  | EvListInstances _ _ r => AnsListInstances r
  end.

(** The URLs of the GETs of a trace, its calls to the directory service
    (everything that is not a GET), and its list-instances calls. *)
Definition gets (t : list event) : list string :=
  omap (fun ev => match ev with EvGet u _ => Some u | _ => None end) t.

Definition is_directory_call (ev : event) : bool :=
  match ev with
  | EvGet _ _ => false
  | _ => true
  end.

Definition is_list_call (ev : event) : bool :=
  match ev with
  | EvListInstances _ _ _ => true
  | _ => false
  end.

Definition directory_calls (t : list event) : list event :=
  List.filter is_directory_call t.

Definition list_calls (t : list event) : list event :=
  List.filter is_list_call t.

(** The outside world: a state [W] that every call may read and change
    (servers start and stop, instances come and go), and the answer each
    call gets in a state. *)
Record World (W : Type) : Type := {
  world_get : string -> W -> result Response * W;
  world_new_client : W -> result Client * W;
  world_get_project : Client -> W -> result Project * W;
  world_list_instances : Client -> string -> W -> result (list Lightningapp.t) * W
}.

Arguments world_get {W} _ _ _.
Arguments world_new_client {W} _ _.
Arguments world_get_project {W} _ _ _.
Arguments world_list_instances {W} _ _ _ _.

(** The outcome of a run: what the program returned or raised, the calls
    it made in order, and the state it left the world in. *)
Record Run (W A : Type) : Type := {
  outcome : result A;
  trace : list event;
  final : W
}.

Arguments outcome {W A} _.
Arguments trace {W A} _.
Arguments final {W A} _.

Definition logged {W A : Type} (ev : event) (r : Run W A) : Run W A :=
  {| outcome := outcome r; trace := ev :: trace r; final := final r |}.

Fixpoint run {W A : Type} (h : World W) (p : prog A) (w : W) : Run W A :=
  match p with
  | Ret a => {| outcome := inr a; trace := []; final := w |}
  | Raise e => {| outcome := inl e; trace := []; final := w |}
  | Get u k =>
      let '(r, w') := world_get h u w in
      logged (EvGet u r) (run h (k r) w')
  | NewClient k =>
      let '(r, w') := world_new_client h w in
      logged (EvNewClient r) (run h (k r) w')
  | GetProject c k =>
      let '(r, w') := world_get_project h c w in
      logged (EvGetProject c r) (run h (k r) w')
  | ListInstances c pid k =>
      let '(r, w') := world_list_instances h c pid w in
      logged (EvListInstances c pid r) (run h (k r) w')
  end.

End Model.

Arguments Ret {Json Client A} a.
Arguments Raise {Json Client A} e.
Arguments Get {Json Client A} u k.
Arguments NewClient {Json Client A} k.
Arguments GetProject {Json Client A} c k.
Arguments ListInstances {Json Client A} c pid k.
Arguments bind {Json Client A B} m f.
Arguments try_except {Json Client A} body handler.
Arguments returned {Json Client A} r.
Arguments status_code {Json} _.
Arguments json {Json} _.
Arguments requests_get {Json Client} u.
Arguments LightningClient {Json Client}.
Arguments _get_project {Json Client} client.
Arguments lightningapp_instance_service_list_lightningapp_instances
  {Json Client} client pid.
Arguments resp_json {Json Client} resp.
Arguments get_commands {Json} str_json {Client} url.
Arguments local_attempt {Json} str_json {Client} APP_SERVER_PORT.
Arguments scan {Json} str_json {Client} app_id_or_name_or_url lightningapps.
Arguments _retrieve_application_url_and_available_commands
  {Json} str_json repr_str {Client} APP_SERVER_PORT app_id_or_name_or_url.
Arguments EvGet {Json Client} u r.
Arguments EvNewClient {Json Client} r.
Arguments EvGetProject {Json Client} c r.
Arguments EvListInstances {Json Client} c pid r.
Arguments request_of {Json Client} ev.
Arguments answer_of {Json Client} ev.
Arguments gets {Json Client} t.
Arguments is_directory_call {Json Client} ev.
Arguments is_list_call {Json Client} ev.
Arguments directory_calls {Json Client} t.
Arguments list_calls {Json Client} t.
Arguments world_get {Json Client W} _ _ _.
Arguments world_new_client {Json Client W} _ _.
Arguments world_get_project {Json Client W} _ _ _.
Arguments world_list_instances {Json Client W} _ _ _ _.
Arguments outcome {Json Client W A} _.
Arguments trace {Json Client W A} _.
Arguments final {Json Client W A} _.
Arguments logged {Json Client W A} ev r.
Arguments run {Json Client W A} h p w.

(** The exception a collaborator raised at a call, if it raised one. *)
Definition raised_by {Json Client : Type} (ev : event Json Client) : option exn :=
  match ev with
  | EvGet _ (inl e) => Some e
  | EvNewClient (inl e) => Some e
  | EvGetProject _ (inl e) => Some e
  | EvListInstances _ _ (inl e) => Some e
  | _ => None
  end.

(** What the GET-and-check block makes of the answer to its GET. *)
Definition commands_outcome {Json : Type} (str_json : Json -> string)
    (url : string) (r : result (Response Json))
  : result (option string * option Json) :=
  match r with
  | inl e => inl e
  | inr resp =>
      match json resp with
      | None => inl JSONDecodeError
      | Some body =>
          if (status_code resp =? 200)%Z then inr (Some url, Some body)
          else inl (Exception
                      ("The server didn't process the request properly. Found "
                       ++ str_json body))
      end
  end.

(** A world whose answers do not depend on its state: the remote state
    is the same at every call. *)
Definition stationary {Json Client W : Type} (h : World Json Client W) : Prop :=
  (forall u w w', (world_get h u w).1 = (world_get h u w').1) /\
  (forall w w', (world_new_client h w).1 = (world_new_client h w').1) /\
  (forall c w w', (world_get_project h c w).1 = (world_get_project h c w').1) /\
  (forall c pid w w',
      (world_list_instances h c pid w).1 = (world_list_instances h c pid w').1).

(** The test of the loop of lines 89-90 on one instance, for a given
    identifier, and the first instance of a listing that passes it. *)
Definition app_matches (ident : string) (a : Lightningapp.t) : bool :=
  String.eqb (Lightningapp.id a) ident || String.eqb (Lightningapp.name a) ident.

Definition first_match (ident : string) (apps : list Lightningapp.t)
  : option Lightningapp.t :=
  List.find (app_matches ident) apps.

(** ** [ColossalAIStrategy.lightning_module_state_dict]

    From [src/pytorch_lightning/strategies/colossalai.py].  The method
    reads three things from the strategy: [self.model.state_dict(...)], an
    ordered dictionary, here the list of its items in order;
    [self.model.named_children()], here the list of the names with the
    identity of each child module; and [self.lightning_module].  Modules
    are compared by identity ([is]), so a module is its address.  The
    three reads are taken as the values they return: what they may raise
    themselves is not part of this model. *)
Module ColossalAIStrategy.

(** The exceptions the method can raise itself: a failed [assert], and a
    key missing from [mapping_dict]. *)
Inductive exn : Type :=
| AssertionError
| KeyError (key : string).

(** The loop of lines 310-311:
    [mapping_dict[key] = key.replace(prefix, "")] for each key. *)
Definition mapping_loop (prefix : string) (keys : list string)
  : gmap string string :=
  foldl (fun mapping_dict key => <[key := str_replace prefix "" key]> mapping_dict)
        ∅ keys.

(** The dictionary comprehension of line 313, item by item: a later item
    with the same new key replaces the value of an earlier one. *)
Fixpoint comprehension {V : Type} (mapping_dict : gmap string string)
    (items : list (string * V)) (acc : gmap string V) : exn + gmap string V :=
  match items with
  | [] => inr acc
  | (key, value) :: rest =>
      match mapping_dict !! key with
      | None => inl (KeyError key)
      | Some new_key => comprehension mapping_dict rest (<[new_key := value]> acc)
      end
  end.

Definition lightning_module_state_dict {V : Type}
    (org_dict : list (string * V))
    (children : list (string * nat))
    (lightning_module : option nat)
  : exn + gmap string V :=
  match children with
  | [(prefix, child)] =>                               (* assert len(children) == 1 *)
      let prefix := prefix ++ "." in
      if bool_decide (Some child = lightning_module)   (* assert child is self.lightning_module *)
      then
        let mapping_dict := mapping_loop prefix (org_dict.*1) in
        comprehension mapping_dict org_dict ∅
      else inl AssertionError
  | _ => inl AssertionError
  end.

End ColossalAIStrategy.

(** ** Sample worlds *)

(** The two-instance listing of the specification's examples. *)
Definition sample_listing : list Lightningapp.t :=
  [ {| Lightningapp.id := "a"; Lightningapp.name := "foo";
       Lightningapp.status := {| Lightningapp.url := "" |} |};
    {| Lightningapp.id := "b"; Lightningapp.name := "bar";
       Lightningapp.status := {| Lightningapp.url := "http://x" |} |} ].

(** [repr()] of a string without quotes or backslashes. *)
Definition quoted (s : string) : string := "'" ++ s ++ "'".

(** A world that never changes: GETs are answered by [web], the directory
    service builds a client, finds project [p1] and lists [apps].  JSON
    values are kept as their text, clients carry no data. *)
Definition still_world (web : string -> result (Response string))
    (apps : list Lightningapp.t) : World string unit unit :=
  {| world_get := fun u w => (web u, w);
     world_new_client := fun w => (inr tt, w);
     world_get_project := fun _ w => (inr {| project_id := "p1" |}, w);
     world_list_instances := fun _ _ w => (inr apps, w) |}.

(** The same answers from a world that counts the calls it has served. *)
Definition counting_world (web : string -> result (Response string))
    (apps : list Lightningapp.t) : World string unit nat :=
  {| world_get := fun u n => (web u, S n);
     world_new_client := fun n => (inr tt, S n);
     world_get_project := fun _ n => (inr {| project_id := "p1" |}, S n);
     world_list_instances := fun _ _ n => (inr apps, S n) |}.

(** Nothing listens anywhere except an instance at [http://x] serving its
    manifest and a broken one at [http://y]. *)
Definition sample_web (u : string) : result (Response string) :=
  if String.eqb u "http://x/api/v1/commands" then
    inr {| status_code := 200; json := Some "{'commands': []}" |}
  else if String.eqb u "http://y/api/v1/commands" then
    inr {| status_code := 500; json := Some "{'detail': 'boom'}" |}
  else inl ConnectionError.

(** A local application answers on the well-known port [7501]. *)
Definition local_web (resp : Response string) (u : string)
  : result (Response string) :=
  if String.eqb u "http://localhost:7501/api/v1/commands" then inr resp
  else inl ConnectionError.

(** A world in which the directory service turns the caller away: no
    client can be constructed. *)
Definition refusing_world (web : string -> result (Response string))
  : World string unit unit :=
  {| world_get := fun u w => (web u, w);
     world_new_client := fun w => (inl (OtherError "unauthenticated"), w);
     world_get_project := fun _ w => (inl (OtherError "unauthenticated"), w);
     world_list_instances := fun _ _ w => (inl (OtherError "unauthenticated"), w) |}.

(** A listing with one instance, whose server is the broken one at
    [http://y]. *)
Definition broken_listing : list Lightningapp.t :=
  [ {| Lightningapp.id := "c"; Lightningapp.name := "baz";
       Lightningapp.status := {| Lightningapp.url := "http://y" |} |} ].

(** A model state in which a key of the wrapped module and a key of the
    wrapper come to the same name. *)
Definition sample_state : list (string * nat) :=
  [("m.a", 1); ("a", 2); ("m.b", 3)].

(** A gateway answers for the server at [http://w]: status 502 and a page
    that is not JSON. *)
Definition gateway_web (u : string) : result (Response string) :=
  if String.eqb u "http://w/api/v1/commands" then
    inr {| status_code := 502; json := None |}
  else inl ConnectionError.

(** The resolver against these worlds. *)
Definition resolve_sample (id : option string)
  : prog string unit (option string * option string) :=
  _retrieve_application_url_and_available_commands (fun j => j) quoted 7501 id.

(** ** Properties of the string primitives *)

(** A split is never empty, so the first part always exists. *)
Lemma str_split_not_nil sep s : str_split sep s <> [].
Proof.
  destruct s as [|c s]; simpl; [discriminate|].
  destruct (Ascii.eqb c sep); [discriminate|].
  destruct (str_split sep s); discriminate.
Qed.

(** A split has one more part than the text has separators. *)
Lemma str_split_length sep s :
  length (str_split sep s) = S (count_char sep s).
Proof.
  induction s as [|c s IH]; simpl; [reflexivity|].
  destruct (Ascii.eqb c sep); simpl.
  - now rewrite IH.
  - destruct (str_split sep s) eqn:E; simpl in *; [discriminate|assumption].
Qed.

(** A text without separator is its own single part. *)
Lemma str_split_none sep s :
  count_char sep s = 0 -> str_split sep s = [s].
Proof.
  induction s as [|c s IH]; simpl; [reflexivity|].
  destruct (Ascii.eqb c sep); simpl; [discriminate|].
  intros H. now rewrite (IH H).
Qed.

(** The first separator ends the first part. *)
Lemma str_split_app sep s t :
  count_char sep s = 0 ->
  str_split sep (s ++ String sep t) = s :: str_split sep t.
Proof.
  induction s as [|c s IH]; simpl.
  - intros _. now rewrite Ascii.eqb_refl.
  - destruct (Ascii.eqb c sep); simpl; [discriminate|].
    intros H. now rewrite (IH H).
Qed.

(** Conversely, the parts of a split contain no separator and spell the
    text back when joined by it. *)
Lemma str_split_two sep s n v :
  str_split sep s = [n; v] ->
  s = n ++ String sep v /\ count_char sep n = 0 /\ count_char sep v = 0.
Proof.
  revert n. induction s as [|c s IH]; simpl; intros n; [discriminate|].
  destruct (Ascii.eqb_spec c sep) as [->|Hne].
  - intros [= <- Hs].
    pose proof (str_split_length sep s) as Hl. rewrite Hs in Hl. simpl in Hl.
    assert (count_char sep s = 0) as H0 by lia.
    rewrite (str_split_none _ _ H0) in Hs. injection Hs as ->.
    auto.
  - destruct (str_split sep s) as [|p ps] eqn:E; [discriminate|].
    intros [= <- ->].
    destruct (IH p eq_refl) as (-> & Hp & Hv).
    simpl. destruct (Ascii.eqb_spec c sep); [contradiction|]. auto.
Qed.

(** The prefix match succeeds exactly on a first character of the class. *)
Lemma re_match_plus_None cls s :
  re_match_plus cls s = None <->
  s = "" \/ exists c rest, s = String c rest /\ cls c = false.
Proof.
  unfold re_match_plus. destruct s as [|c s]; simpl.
  - split; auto.
  - destruct (cls c) eqn:E; split.
    + discriminate.
    + intros [H|(c' & rest & [= <- <-] & H)]; congruence.
    + eauto.
    + reflexivity.
Qed.

Lemma re_match_plus_Some cls c rest :
  cls c = true -> exists m, re_match_plus cls (String c rest) = Some m.
Proof.
  intros H. unfold re_match_plus. simpl. rewrite H. eauto.
Qed.

(** ** Properties of [_format_input_env_variables] *)

(** In the text of the entry: a well-formed entry is a name, one [=] and
    a value, where the name starts with a character of the class and
    neither name nor value holds a [=]. *)
Lemma well_formed_text e :
  well_formed e <->
  exists c rest value,
    e = String c rest ++ String "=" value /\ name_char c = true /\
    count_char "=" rest = 0 /\ count_char "=" value = 0.
Proof.
  assert (forall c, name_char c = true -> Ascii.eqb c "=" = false) as Hclass.
  { intros c Hc. destruct (Ascii.eqb_spec c "=") as [->|]; [discriminate|reflexivity]. }
  split.
  - intros (c & rest & value & Hs & Hc).
    apply str_split_two in Hs as (-> & Hn & Hv).
    exists c, rest, value. repeat split; try assumption.
    simpl in Hn. rewrite (Hclass c Hc) in Hn. exact Hn.
  - intros (c & rest & value & -> & Hc & Hrest & Hv).
    exists c, rest, value. split; [|assumption].
    rewrite str_split_app, (str_split_none _ _ Hv); [reflexivity|].
    simpl. now rewrite (Hclass c Hc).
Qed.

(** An entry is accepted exactly when it is well formed and its name is
    new; the dictionary then gains that one binding. *)
Lemma format_entry_inr d e d' :
  format_entry d e = inr d' <->
  exists c rest v,
    str_split "=" e = [String c rest; v] /\ name_char c = true /\
    d !! String c rest = None /\ d' = <[String c rest := v]> d.
Proof.
  unfold format_entry. split.
  - destruct (str_split "=" e) as [|n [|v [|]]]; try discriminate.
    destruct n as [|c rest]; simpl; [discriminate|].
    case_bool_decide as Hd; [discriminate|].
    destruct (re_match_plus name_char (String c rest)) eqn:Hm; [|discriminate].
    intros [= <-]. exists c, rest, v. split; [reflexivity|].
    split.
    + destruct (name_char c) eqn:Hc; [reflexivity|].
      assert (re_match_plus name_char (String c rest) = None) as Hn
        by (apply re_match_plus_None; eauto).
      congruence.
    + split; [|reflexivity].
      destruct (d !! String c rest) eqn:Hl; [|reflexivity].
      exfalso. apply Hd. eauto.
  - intros (c & rest & v & -> & Hc & Hl & ->). simpl.
    case_bool_decide as Hd.
    + rewrite Hl in Hd. destruct Hd as [? [=]].
    + destruct (re_match_plus_Some name_char c rest Hc) as [m ->]. reflexivity.
Qed.

(** The invalid-name error of one entry. *)
Lemma format_entry_ValueError d e m :
  format_entry d e = inl (ValueError m) <->
  exists c rest v,
    str_split "=" e = [String c rest; v] /\ d !! String c rest = None /\
    name_char c = false /\ m = invalid_name_msg (String c rest).
Proof.
  unfold format_entry. split.
  - destruct (str_split "=" e) as [|n [|v [|]]]; try discriminate.
    destruct n as [|c rest]; simpl; [discriminate|].
    case_bool_decide as Hd; [discriminate|].
    destruct (re_match_plus name_char (String c rest)) eqn:Hm; [discriminate|].
    intros [= <-]. exists c, rest, v.
    apply re_match_plus_None in Hm as [[=]|(c' & rest' & [= <- <-] & Hc)].
    repeat split; try assumption.
    destruct (d !! String c rest) eqn:Hl; [|reflexivity].
    exfalso. apply Hd. eauto.
  - intros (c & rest & v & -> & Hl & Hc & ->). simpl.
    case_bool_decide as Hd.
    + rewrite Hl in Hd. destruct Hd as [? [=]].
    + assert (re_match_plus name_char (String c rest) = None) as ->
        by (apply re_match_plus_None; eauto).
      reflexivity.
Qed.

(** An entry with other than two parts, or with an empty name, raises. *)
Lemma format_entry_malformed d e :
  length (str_split "=" e) <> 2 \/ var_name_of e = "" ->
  format_entry d e = inl (Exception (invalid_format_msg e)).
Proof.
  unfold format_entry, var_name_of, invalid_format_msg.
  destruct (str_split "=" e) as [|n [|v [|]]]; simpl; try reflexivity.
  intros [H| ->]; [contradiction|reflexivity].
Qed.

(** An entry whose name is already bound raises. *)
Lemma format_entry_bound d e :
  is_Some (d !! var_name_of e) -> exists err, format_entry d e = inl err.
Proof.
  unfold format_entry, var_name_of.
  destruct (str_split "=" e) as [|n [|v [|]]]; simpl; eauto.
  intros Hs. destruct (truthy n); simpl; eauto.
  rewrite bool_decide_eq_true_2 by assumption. eauto.
Qed.

(** Accepting an entry binds its name and keeps every earlier binding. *)
Lemma format_entry_binds d e d' :
  format_entry d e = inr d' ->
  is_Some (d' !! var_name_of e) /\
  forall k, is_Some (d !! k) -> is_Some (d' !! k).
Proof.
  intros (c & rest & v & Hs & _ & Hl & ->)%format_entry_inr.
  unfold var_name_of. rewrite Hs. simpl. split.
  - rewrite lookup_insert_eq. eauto.
  - intros k Hk. destruct (decide (String c rest = k)) as [<-|Hne].
    + rewrite lookup_insert_eq. eauto.
    + now rewrite lookup_insert_ne.
Qed.

(** The loop raises as soon as the list holds an entry that raises in
    every dictionary. *)
Lemma format_loop_raises_on (bad : string -> Prop) l :
  (forall d e, bad e -> exists err, format_entry d e = inl err) ->
  forall d e, e ∈ l -> bad e -> exists err, format_loop d l = inl err.
Proof.
  intros Hbad. induction l as [|x l IH]; intros d e Hin He.
  - inversion Hin.
  - simpl. destruct (format_entry d x) as [err|d1] eqn:Hx; [eauto|].
    apply elem_of_cons in Hin as [->|Hin].
    + destruct (Hbad d x He) as [err Herr]. congruence.
    + eapply IH; eauto.
Qed.

(** The loop raises when a later entry names a variable already bound. *)
Lemma format_loop_bound l :
  forall d e, e ∈ l -> is_Some (d !! var_name_of e) ->
  exists err, format_loop d l = inl err.
Proof.
  induction l as [|x l IH]; intros d e Hin He.
  - inversion Hin.
  - simpl. destruct (format_entry d x) as [err|d1] eqn:Hx; [eauto|].
    apply elem_of_cons in Hin as [->|Hin].
    + destruct (format_entry_bound d x He) as [err Herr]. congruence.
    + apply (IH d1 e Hin). now apply (format_entry_binds d x d1 Hx).
Qed.

(** On well-formed entries with fresh, pairwise distinct names the loop
    returns the dictionary extended by exactly their bindings. *)
Lemma format_loop_well_formed l :
  forall d,
    Forall well_formed l ->
    NoDup (map var_name_of l) ->
    (forall e, e ∈ l -> d !! var_name_of e = None) ->
    exists d', format_loop d l = inr d' /\
      forall k v, d' !! k = Some v <->
        d !! k = Some v \/ exists e, e ∈ l /\ str_split "=" e = [k; v].
Proof.
  induction l as [|x l IH]; intros d Hwf Hnd Hfresh.
  - exists d. split; [reflexivity|]. intros k v. split; [auto|].
    intros [H|(e & He & _)]; [assumption|inversion He].
  - apply Forall_cons in Hwf as [(c & rest & value & Hs & Hc) Hwf].
    simpl in Hnd. apply NoDup_cons in Hnd as [Hx Hnd].
    assert (var_name_of x = String c rest) as Hname
      by (unfold var_name_of; now rewrite Hs).
    assert (d !! String c rest = None) as Hl
      by (rewrite <- Hname; apply Hfresh; left).
    assert (format_entry d x = inr (<[String c rest := value]> d)) as Hx'
      by (apply format_entry_inr; exists c, rest, value; auto).
    simpl. rewrite Hx'.
    destruct (IH (<[String c rest := value]> d) Hwf Hnd) as (d' & Hd' & Hlook).
    { intros e He. rewrite lookup_insert_ne; [apply Hfresh; now right|].
      intros Heq. apply Hx. rewrite Hname, Heq.
      apply list_elem_of_fmap. eauto. }
    exists d'. split; [assumption|]. intros k v. rewrite Hlook. split.
    + intros [Hi|(e & He & Hse)].
      * destruct (decide (String c rest = k)) as [<-|Hne].
        -- rewrite lookup_insert_eq in Hi. injection Hi as <-.
           right. exists x. split; [left|assumption].
        -- rewrite lookup_insert_ne in Hi by assumption. now left.
      * right. exists e. split; [now right|assumption].
    + intros [Hd|(e & He & Hse)].
      * left. rewrite lookup_insert_ne; [assumption|]. congruence.
      * apply elem_of_cons in He as [->|He].
        -- left. rewrite Hs in Hse. injection Hse as <- <-.
           apply lookup_insert_eq.
        -- right. eauto.
Qed.

(** Two entries of the list with one name make the loop raise. *)
Lemma format_loop_duplicate l :
  forall d i j ei ej,
    i < j -> l !! i = Some ei -> l !! j = Some ej ->
    var_name_of ei = var_name_of ej ->
    exists err, format_loop d l = inl err.
Proof.
  induction l as [|x l IH]; intros d i j ei ej Hij Hi Hj Hname.
  - discriminate.
  - simpl. destruct (format_entry d x) as [err|d1] eqn:Hx; [eauto|].
    destruct j as [|j]; [lia|]. simpl in Hj.
    destruct i as [|i]; simpl in Hi.
    + injection Hi as ->.
      apply (format_loop_bound l d1 ej).
      * apply list_elem_of_lookup. eauto.
      * rewrite <- Hname. exact (proj1 (format_entry_binds _ _ _ Hx)).
    + apply (IH d1 i j ei ej); [lia|assumption..].
Qed.

(** The loop raises the invalid-name error exactly at an entry it reaches
    whose new name starts outside the class. *)
Lemma format_loop_ValueError l :
  forall d m,
    format_loop d l = inl (ValueError m) <->
    exists pre e post d' c rest v,
      l = (pre ++ e :: post)%list /\ format_loop d pre = inr d' /\
      str_split "=" e = [String c rest; v] /\ d' !! String c rest = None /\
      name_char c = false /\ m = invalid_name_msg (String c rest).
Proof.
  induction l as [|x l IH]; intros d m.
  - simpl. split; [discriminate|].
    intros (pre & e & post & ? & ? & ? & ? & Hl & _).
    destruct pre; discriminate.
  - simpl. split.
    + destruct (format_entry d x) as [err|d1] eqn:Hx.
      * intros [= ->].
        apply format_entry_ValueError in Hx as (c & rest & v & Hs & Hl & Hc & ->).
        exists [], x, l, d, c, rest, v. repeat split; assumption || reflexivity.
      * intros (pre & e & post & d' & c & rest & v & -> & Hpre & H)%IH.
        exists (x :: pre), e, post, d', c, rest, v. split; [reflexivity|].
        split; [|assumption]. simpl. now rewrite Hx.
    + intros (pre & e & post & d' & c & rest & v & Hl & Hpre & Hs & Hd & Hc & ->).
      destruct pre as [|y pre]; simpl in Hl, Hpre; injection Hl as <- ->.
      * injection Hpre as <-.
        assert (format_entry d x = inl (ValueError (invalid_name_msg (String c rest))))
          as -> by (apply format_entry_ValueError; exists c, rest, v; auto).
        reflexivity.
      * destruct (format_entry d x) as [err|d1]; [discriminate|].
        apply IH. exists pre, e, post, d', c, rest, v.
        repeat split; assumption || reflexivity.
Qed.

(** C9. [_format_input_env_variables] raises an error for every list that
    holds an entry whose split on [=] does not have exactly two parts
    (that is, an entry with no [=] or with more than one, so a value that
    contains [=] is rejected) or whose name part is empty, and for every
    list in which two entries carry the same variable name; for every
    list of well-formed entries (two parts, the name starting with a
    character of [[0-9a-zA-Z_]]) with pairwise distinct names it returns
    the dictionary that maps each name to its value, and nothing else. *)
Theorem format_input_env_variables_spec :
  (forall l e,
      e ∈ l -> length (str_split "=" e) <> 2 \/ var_name_of e = "" ->
      exists err, _format_input_env_variables l = inl err) /\
  (forall e, length (str_split "=" e) = 2 <-> count_char "=" e = 1) /\
  (forall l i j ei ej,
      i <> j -> l !! i = Some ei -> l !! j = Some ej ->
      var_name_of ei = var_name_of ej ->
      exists err, _format_input_env_variables l = inl err) /\
  (forall l,
      Forall well_formed l -> NoDup (map var_name_of l) ->
      exists d, _format_input_env_variables l = inr d /\
        forall k v, d !! k = Some v <->
          exists e, e ∈ l /\ str_split "=" e = [k; v]).
Proof.
  unfold _format_input_env_variables. repeat split.
  - intros l e Hin Hbad.
    apply (format_loop_raises_on
             (fun e => length (str_split "=" e) <> 2 \/ var_name_of e = "")
             l) with (e := e); [|assumption..].
    intros d x Hx. rewrite (format_entry_malformed d x Hx). eauto.
  - rewrite str_split_length. lia.
  - rewrite str_split_length. lia.
  - intros l i j ei ej Hij Hi Hj Hname.
    destruct (Nat.lt_total i j) as [Hlt|[->|Hlt]]; [|contradiction|].
    + apply (format_loop_duplicate l ∅ i j ei ej); assumption.
    + apply (format_loop_duplicate l ∅ j i ej ei); auto.
  - intros l Hwf Hnd.
    destruct (format_loop_well_formed l ∅ Hwf Hnd) as (d & Hd & Hlook).
    { intros e _. apply lookup_empty. }
    exists d. split; [assumption|]. intros k v. rewrite Hlook.
    rewrite lookup_empty. split; [intros [[=]|H]|]; auto.
Qed.

(** C10. The invalid-name [ValueError] is raised exactly when the loop
    reaches an entry whose (new) variable name has its first character
    outside [[0-9a-zA-Z_]]: the check is a prefix match, so a name whose
    first character is allowed is accepted whatever follows it, and the
    entry [a-b=1] yields the mapping of [a-b] to [1]. *)
Theorem invalid_name_iff_first_char :
  (forall l m,
      _format_input_env_variables l = inl (ValueError m) <->
      exists pre e post d c rest v,
        l = (pre ++ e :: post)%list /\ _format_input_env_variables pre = inr d /\
        str_split "=" e = [String c rest; v] /\ d !! String c rest = None /\
        name_char c = false /\ m = invalid_name_msg (String c rest)) /\
  (forall c rest v,
      name_char c = true ->
      count_char "=" (String c rest) = 0 -> count_char "=" v = 0 ->
      _format_input_env_variables [String c rest ++ "=" ++ v]
      = inr {[ String c rest := v ]}) /\
  _format_input_env_variables ["a-b=1"] = inr {[ "a-b" := "1" ]}.
Proof.
  split; [|split].
  - intros l m. apply format_loop_ValueError.
  - intros c rest v Hc Hn Hv. unfold _format_input_env_variables. simpl format_loop.
    assert (format_entry ∅ (String c rest ++ "=" ++ v)
            = inr (<[String c rest := v]> ∅)) as ->.
    { apply format_entry_inr. exists c, rest, v.
      change ("=" ++ v) with (String "=" v).
      rewrite (str_split_app "=" (String c rest) v Hn), (str_split_none "=" v Hv).
      repeat split; first [exact Hc | apply lookup_empty]. }
    reflexivity.
  - reflexivity.
Qed.

(** ** Further properties of [_format_input_env_variables] *)

(** What the loop accepted was well formed, with names that are pairwise
    distinct and were not bound before. *)
Lemma format_loop_inr_inv l :
  forall d d',
    format_loop d l = inr d' ->
    Forall well_formed l /\ NoDup (map var_name_of l) /\
    forall e, e ∈ l -> d !! var_name_of e = None.
Proof.
  induction l as [|x l IH]; intros d d' H.
  - repeat split; [constructor|constructor|]. intros e He. inversion He.
  - simpl in H. destruct (format_entry d x) as [err|d1] eqn:Hx; [discriminate|].
    destruct (IH d1 d' H) as (Hwf & Hnd & Hfresh).
    pose proof (proj1 (format_entry_binds d x d1 Hx)) as Hbound.
    apply format_entry_inr in Hx as (c & rest & v & Hs & Hc & Hl & ->).
    assert (var_name_of x = String c rest) as Hname
      by (unfold var_name_of; now rewrite Hs).
    repeat split.
    + constructor; [exists c, rest, v; auto|assumption].
    + simpl. apply NoDup_cons. split; [|assumption].
      intros (e & He & Hin)%list_elem_of_fmap.
      specialize (Hfresh e Hin). rewrite He, Hfresh in Hbound.
      destruct Hbound as [? [=]].
    + intros e [->|Hin]%elem_of_cons; [now rewrite Hname|].
      specialize (Hfresh e Hin).
      destruct (decide (String c rest = var_name_of e)) as [Heq|Hne].
      * rewrite <- Heq, lookup_insert_eq in Hfresh. discriminate.
      * now rewrite lookup_insert_ne in Hfresh.
Qed.

(** The function returns [d] exactly on well-formed entries with pairwise
    distinct names, and [d] then holds exactly their bindings. *)
Lemma format_inr_iff l d :
  _format_input_env_variables l = inr d <->
  Forall well_formed l /\ NoDup (map var_name_of l) /\
  forall k v, d !! k = Some v <-> exists e, e ∈ l /\ str_split "=" e = [k; v].
Proof.
  unfold _format_input_env_variables. split.
  - intros H. destruct (format_loop_inr_inv l ∅ d H) as (Hwf & Hnd & Hfresh).
    split; [assumption|]. split; [assumption|].
    destruct (format_loop_well_formed l ∅ Hwf Hnd Hfresh) as (d' & Hd' & Hlook).
    assert (d' = d) as -> by congruence.
    intros k v. rewrite Hlook, lookup_empty. split; [intros [[=]|?]|]; auto.
  - intros (Hwf & Hnd & Hlook).
    destruct (format_loop_well_formed l ∅ Hwf Hnd) as (d' & Hd' & Hlook').
    { intros e _. apply lookup_empty. }
    rewrite Hd'. f_equal. apply map_eq. intros k. apply option_eq. intros v.
    rewrite Hlook', Hlook, lookup_empty. split; [intros [[=]|?]|]; auto.
Qed.

(** Well-formed entries with pairwise distinct names are accepted. *)
Lemma format_accepts l :
  Forall well_formed l -> NoDup (map var_name_of l) ->
  exists d, _format_input_env_variables l = inr d.
Proof.
  intros Hwf Hnd.
  destruct (format_loop_well_formed l ∅ Hwf Hnd) as (d & Hd & _).
  { intros e _. apply lookup_empty. }
  exists d. exact Hd.
Qed.

(** X1. The function succeeds exactly when every entry is well formed and no
    two entries carry the same name. *)
Theorem format_succeeds_iff (env_list : list string) :
  (exists d, _format_input_env_variables env_list = inr d) <->
  Forall well_formed env_list /\ NoDup (map var_name_of env_list).
Proof.
  split.
  - intros (d & Hd). apply format_inr_iff in Hd as (Hwf & Hnd & _). auto.
  - intros (Hwf & Hnd). now apply format_accepts.
Qed.

(** The error of one entry, by the check that raises it: the format check
    comes first, then the duplicate check, then the name check. *)
Lemma format_entry_inl_iff d e err :
  format_entry d e = inl err <->
  (err = Exception (invalid_format_msg e)
   /\ (length (str_split "=" e) <> 2 \/ var_name_of e = ""))
  \/ (err = Exception (duplicated_msg (var_name_of e))
      /\ length (str_split "=" e) = 2 /\ var_name_of e <> ""
      /\ is_Some (d !! var_name_of e))
  \/ (err = ValueError (invalid_name_msg (var_name_of e))
      /\ length (str_split "=" e) = 2 /\ d !! var_name_of e = None
      /\ exists c rest, var_name_of e = String c rest /\ name_char c = false).
Proof.
  unfold format_entry, var_name_of.
  destruct (str_split "=" e) as [|n [|v [|]]] eqn:Hs; simpl.
  1,2,4: split; [intros [= <-]; left; split; [reflexivity|left; discriminate]|];
         intros [[-> _]|[(_ & [=] & _)|(_ & [=] & _)]]; reflexivity.
  destruct n as [|c rest]; simpl.
  - split; [intros [= <-]; left; auto|].
    intros [[-> _]|[(_ & _ & Hn & _)|(_ & _ & _ & c & rest & [=] & _)]];
      [reflexivity|contradiction].
  - case_bool_decide as Hd.
    + split; [intros [= <-]; right; left; repeat split; auto; discriminate|].
      intros [[_ [H|[=]]]|[(-> & _)|(_ & _ & Hl & _)]];
        [contradiction|reflexivity|].
      rewrite Hl in Hd. destruct Hd as [? [=]].
    + assert (d !! String c rest = None) as Hl.
      { destruct (d !! String c rest) eqn:E; [|reflexivity]. exfalso. eauto. }
      destruct (re_match_plus name_char (String c rest)) as [m|] eqn:Hm.
      * split; [discriminate|].
        intros [[_ [H|[=]]]|[(_ & _ & _ & Hs')|(_ & _ & _ & c' & rest' & [= <- <-] & Hc)]];
          [contradiction|contradiction|].
        destruct (re_match_plus_Some name_char c rest) as [m' Hm'].
        { destruct (name_char c) eqn:Hc'; [reflexivity|].
          assert (re_match_plus name_char (String c rest) = None) as Hn
            by (apply re_match_plus_None; eauto).
          congruence. }
        assert (re_match_plus name_char (String c rest) = None) as Hn
          by (apply re_match_plus_None; eauto).
        congruence.
      * apply re_match_plus_None in Hm as [[=]|(c' & rest' & [= <- <-] & Hc)].
        split; [intros [= <-]; right; right; repeat split; eauto|].
        intros [[_ [H|[=]]]|[(_ & _ & _ & Hs')|(-> & _)]];
          [contradiction|contradiction|reflexivity].
Qed.

(** The loop raises the error of the first entry it rejects, in the
    dictionary of the entries before it. *)
Lemma format_loop_inl_iff l :
  forall d err,
    format_loop d l = inl err <->
    exists pre e post d',
      l = (pre ++ e :: post)%list /\ format_loop d pre = inr d' /\
      format_entry d' e = inl err.
Proof.
  induction l as [|x l IH]; intros d err.
  - simpl. split; [discriminate|].
    intros (pre & e & post & d' & Hl & _). destruct pre; discriminate.
  - simpl. split.
    + destruct (format_entry d x) as [err'|d1] eqn:Hx.
      * intros [= ->]. exists [], x, l, d. auto.
      * intros (pre & e & post & d' & -> & Hpre & He)%IH.
        exists (x :: pre), e, post, d'. split; [reflexivity|].
        split; [|assumption]. simpl. now rewrite Hx.
    + intros (pre & e & post & d' & Hl & Hpre & He).
      destruct pre as [|y pre]; simpl in Hl, Hpre; injection Hl as <- ->.
      * injection Hpre as <-. now rewrite He.
      * destruct (format_entry d x) as [err'|d1]; [discriminate|].
        apply IH. exists pre, e, post, d'. auto.
Qed.

(** X2. Every error of the function is the error of the first entry that is
    not acceptable after the entries before it, and it is one of three:
    the format error when the entry has not two parts or has an empty
    name, else the duplicate error when the name is already bound, else
    the name error when the name starts outside the class.  The entries
    after that one play no part. *)
Theorem format_error_iff (env_list : list string) (err : exn) :
  _format_input_env_variables env_list = inl err <->
  exists pre e post d,
    env_list = (pre ++ e :: post)%list /\
    _format_input_env_variables pre = inr d /\
    ((err = Exception (invalid_format_msg e)
      /\ (length (str_split "=" e) <> 2 \/ var_name_of e = ""))
     \/ (err = Exception (duplicated_msg (var_name_of e))
         /\ length (str_split "=" e) = 2 /\ var_name_of e <> ""
         /\ is_Some (d !! var_name_of e))
     \/ (err = ValueError (invalid_name_msg (var_name_of e))
         /\ length (str_split "=" e) = 2 /\ d !! var_name_of e = None
         /\ exists c rest, var_name_of e = String c rest /\ name_char c = false)).
Proof.
  unfold _format_input_env_variables. rewrite format_loop_inl_iff.
  split; intros (pre & e & post & d & Hl & Hpre & He);
    exists pre, e, post, d; (split; [exact Hl|]); (split; [exact Hpre|]);
    now apply format_entry_inl_iff.
Qed.

(** X3. Every name of the returned dictionary starts with a character of the
    class, and neither a name nor a value holds a [=]. *)
Theorem format_result_valid (env_list : list string) (d : gmap string string)
    (k v : string) :
  _format_input_env_variables env_list = inr d ->
  d !! k = Some v ->
  (exists c rest, k = String c rest /\ name_char c = true)
  /\ count_char "=" k = 0 /\ count_char "=" v = 0.
Proof.
  intros (Hwf & _ & Hlook)%format_inr_iff (e & He & Hs)%Hlook.
  rewrite Forall_forall in Hwf.
  destruct (Hwf e He) as (c & rest & value & Hs' & Hc).
  rewrite Hs in Hs'. injection Hs' as -> ->.
  apply str_split_two in Hs as (_ & Hk & Hv). eauto 10.
Qed.

(** X4. On success every entry has given one binding: the dictionary has as
    many names as the list has entries. *)
Theorem format_result_size (env_list : list string) (d : gmap string string) :
  _format_input_env_variables env_list = inr d ->
  size d = length env_list.
Proof.
  unfold _format_input_env_variables.
  assert (forall l d0 d', format_loop d0 l = inr d' ->
                          size d' = size d0 + length l) as H.
  { induction l as [|x l IH]; intros d0 d'; simpl.
    - intros [= <-]. lia.
    - destruct (format_entry d0 x) as [err|d1] eqn:Hx; [discriminate|].
      intros Hl. rewrite (IH d1 d' Hl).
      apply format_entry_inr in Hx as (c & rest & v & _ & _ & Hnew & ->).
      rewrite (map_size_insert_None _ _ _ Hnew). lia. }
  intros Hd. rewrite (H _ _ _ Hd), map_size_empty. reflexivity.
Qed.

(** X5. The order of the entries does not matter to the result: a list the
    function accepts is accepted in any order, with the same dictionary. *)
Theorem format_permutation (l1 l2 : list string) (d : gmap string string) :
  l1 ≡ₚ l2 ->
  _format_input_env_variables l1 = inr d ->
  _format_input_env_variables l2 = inr d.
Proof.
  intros Hp (Hwf & Hnd & Hlook)%format_inr_iff. apply format_inr_iff.
  split; [now rewrite <- Hp|]. split; [now rewrite <- Hp|].
  intros k v. rewrite Hlook. split; intros (e & He & Hs); exists e;
    (split; [|exact Hs]); [now rewrite <- Hp|now rewrite Hp].
Qed.

(** The entry that spells a binding splits back into it. *)
Lemma str_split_entry_of k v :
  count_char "=" k = 0 -> count_char "=" v = 0 ->
  str_split "=" (entry_of (k, v)) = [k; v].
Proof.
  intros Hk Hv. unfold entry_of. cbn [fst snd].
  change ("=" ++ v) with (String "=" v).
  now rewrite (str_split_app "=" k v Hk), (str_split_none "=" v Hv).
Qed.

(** X6. Round trip: a dictionary whose names start with a character of the
    class and whose names and values hold no [=] is what the function
    returns on the entries [name=value] that spell its bindings. *)
Theorem format_round_trip (d : gmap string string) :
  (forall k v, d !! k = Some v ->
     (exists c rest, k = String c rest /\ name_char c = true)
     /\ count_char "=" k = 0 /\ count_char "=" v = 0) ->
  _format_input_env_variables (entry_of <$> map_to_list d) = inr d.
Proof.
  intros Hvalid.
  assert (forall kv, kv ∈ map_to_list d ->
            str_split "=" (entry_of kv) = [kv.1; kv.2]
            /\ exists c rest, kv.1 = String c rest /\ name_char c = true) as Hsplit.
  { intros [k v] Hin. apply elem_of_map_to_list in Hin.
    destruct (Hvalid k v Hin) as (Hc & Hk & Hv).
    split; [now apply str_split_entry_of|exact Hc]. }
  apply format_inr_iff. split; [|split].
  - apply Forall_fmap, Forall_forall. intros kv Hin.
    destruct (Hsplit kv Hin) as (Hs & c & rest & Hk & Hc).
    exists c, rest, kv.2. rewrite Hs, Hk. auto.
  - assert (map var_name_of (entry_of <$> map_to_list d) = (map_to_list d).*1) as ->.
    { change (map var_name_of (entry_of <$> map_to_list d))
        with (var_name_of <$> (entry_of <$> map_to_list d)).
      rewrite <- list_fmap_compose. apply Forall_fmap_ext_1, Forall_forall.
      intros kv Hin. unfold var_name_of. cbn.
      now rewrite (proj1 (Hsplit kv Hin)). }
    apply NoDup_fst_map_to_list.
  - intros k v. split.
    + intros Hl. exists (entry_of (k, v)). split.
      * apply list_elem_of_fmap. exists (k, v). split; [reflexivity|].
        now apply elem_of_map_to_list.
      * apply (proj1 (Hsplit (k, v) (proj2 (elem_of_map_to_list d k v) Hl))).
    + intros (e & (kv & -> & Hin)%list_elem_of_fmap & Hs).
      rewrite (proj1 (Hsplit kv Hin)) in Hs. injection Hs as <- <-.
      apply elem_of_map_to_list. now destruct kv.
Qed.

(** The names bound by the result are the names of the entries. *)
Lemma format_inr_dom l d k :
  _format_input_env_variables l = inr d ->
  is_Some (d !! k) <-> k ∈ map var_name_of l.
Proof.
  intros (Hwf & _ & Hlook)%format_inr_iff. split.
  - intros [v (e & He & Hs)%Hlook]. apply list_elem_of_fmap. exists e.
    split; [|exact He]. unfold var_name_of. now rewrite Hs.
  - intros (e & -> & He)%list_elem_of_fmap.
    rewrite Forall_forall in Hwf.
    destruct (Hwf e He) as (c & rest & v & Hs & _).
    exists v. apply Hlook. exists e. split; [exact He|].
    unfold var_name_of. now rewrite Hs.
Qed.

(** X7. Two lists are accepted one after the other exactly when each is
    accepted on its own and they share no name; the result is then the
    union of their dictionaries. *)
Theorem format_app (l1 l2 : list string) (d : gmap string string) :
  _format_input_env_variables (l1 ++ l2) = inr d <->
  exists d1 d2,
    _format_input_env_variables l1 = inr d1 /\
    _format_input_env_variables l2 = inr d2 /\
    d1 ##ₘ d2 /\ d = d1 ∪ d2.
Proof.
  split.
  - intros (Hwf & Hnd & Hlook)%format_inr_iff.
    apply Forall_app in Hwf as [Hwf1 Hwf2].
    rewrite map_app in Hnd. apply NoDup_app in Hnd as (Hnd1 & Hdisj & Hnd2).
    destruct (format_accepts l1 Hwf1 Hnd1) as [d1 Hd1].
    destruct (format_accepts l2 Hwf2 Hnd2) as [d2 Hd2].
    assert (d1 ##ₘ d2) as Hdd.
    { apply map_disjoint_spec. intros k v1 v2 H1 H2.
      apply (Hdisj k).
      - apply (format_inr_dom l1 d1 k Hd1). eauto.
      - apply (format_inr_dom l2 d2 k Hd2). eauto. }
    exists d1, d2. repeat split; try assumption.
    apply map_eq. intros k. apply option_eq. intros v.
    rewrite Hlook, (lookup_union_Some _ _ _ _ Hdd).
    apply format_inr_iff in Hd1 as (_ & _ & Hlook1).
    apply format_inr_iff in Hd2 as (_ & _ & Hlook2).
    rewrite Hlook1, Hlook2. split.
    + intros (e & [He|He]%elem_of_app & Hs); eauto.
    + intros [(e & He & Hs)|(e & He & Hs)]; exists e;
        (split; [apply elem_of_app; auto|exact Hs]).
  - intros (d1 & d2 & Hd1 & Hd2 & Hdd & ->).
    pose proof (format_inr_dom l1 d1) as Hdom1.
    pose proof (format_inr_dom l2 d2) as Hdom2.
    apply format_inr_iff in Hd1 as Hd1'. destruct Hd1' as (Hwf1 & Hnd1 & Hlook1).
    apply format_inr_iff in Hd2 as Hd2'. destruct Hd2' as (Hwf2 & Hnd2 & Hlook2).
    apply format_inr_iff. split; [|split].
    + apply Forall_app. auto.
    + rewrite map_app. apply NoDup_app. repeat split; try assumption.
      intros k Hk1 Hk2.
      apply (Hdom1 k Hd1) in Hk1 as [v1 Hv1].
      apply (Hdom2 k Hd2) in Hk2 as [v2 Hv2].
      exact (proj1 (map_disjoint_spec d1 d2) Hdd k v1 v2 Hv1 Hv2).
    + intros k v. rewrite (lookup_union_Some _ _ _ _ Hdd), Hlook1, Hlook2. split.
      * intros [(e & He & Hs)|(e & He & Hs)]; exists e;
          (split; [apply elem_of_app; auto|exact Hs]).
      * intros (e & [He|He]%elem_of_app & Hs); eauto.
Qed.

(** ** Properties of [str.replace] *)

Lemma prefix_app p b : String.prefix p (p ++ b) = true.
Proof.
  induction p as [|c p IH]; simpl; [now destruct b|].
  destruct (ascii_dec c c); [exact IH|contradiction].
Qed.

Lemma prefix_true_inv p : forall s, String.prefix p s = true -> exists b, s = p ++ b.
Proof.
  induction p as [|c p IH]; intros s; [exists s; reflexivity|].
  destruct s as [|c' s]; simpl; [discriminate|].
  destruct (ascii_dec c c') as [<-|]; [|discriminate].
  intros [b ->]%IH. now exists b.
Qed.

(** Passing over the rest of a found occurrence. *)
Lemma replace_from_skip old new a : forall k s,
  String.length a = k ->
  replace_from old new k (a ++ s) = replace_from old new 0 s.
Proof.
  induction a as [|c a IH]; intros k s <-; [reflexivity|].
  simpl. now apply IH.
Qed.

(** An occurrence at the start is replaced, and the search goes on after
    it. *)
Lemma str_replace_leading c p new s :
  str_replace (String c p) new (String c p ++ s)
  = new ++ str_replace (String c p) new s.
Proof.
  unfold str_replace. change (String c p ++ s) with (String c (p ++ s)).
  cbn [replace_from].
  change (String c (p ++ s)) with (String c p ++ s). rewrite prefix_app.
  now rewrite replace_from_skip.
Qed.

(** A text in which [old] does not occur is left as it is. *)
Lemma str_replace_absent old new s :
  (forall a b, s <> a ++ old ++ b) -> str_replace old new s = s.
Proof.
  unfold str_replace. induction s as [|c s IH]; intros Habs.
  - destruct old; [|reflexivity]. exfalso. now apply (Habs "" "").
  - cbn [replace_from].
    destruct (String.prefix old (String c s)) eqn:Hp.
    + apply prefix_true_inv in Hp as [b Hb]. exfalso. now apply (Habs "" b).
    + f_equal. apply IH. intros a b ->. now apply (Habs (String c a) b).
Qed.

(** Before the first character of [old] nothing can be found: what
    precedes it is kept and an occurrence that follows is replaced,
    wherever in the text it stands. *)
Lemma str_replace_middle c p new a s :
  count_char c a = 0 ->
  str_replace (String c p) new (a ++ String c p ++ s)
  = a ++ new ++ str_replace (String c p) new s.
Proof.
  induction a as [|x a IH]; intros Hc.
  - apply str_replace_leading.
  - simpl in Hc. destruct (Ascii.eqb_spec x c) as [->|Hne]; [discriminate|].
    unfold str_replace in *.
    change ((String x a) ++ String c p ++ s) with (String x (a ++ String c p ++ s)).
    cbn [replace_from]. cbn [String.prefix].
    destruct (ascii_dec c x) as [->|_]; [contradiction|].
    rewrite (IH Hc). reflexivity.
Qed.

(** ** Properties of [ColossalAIStrategy.lightning_module_state_dict] *)

(** The loop maps every key it saw to that key without the prefix. *)
Lemma mapping_loop_lookup prefix keys k :
  k ∈ keys ->
  ColossalAIStrategy.mapping_loop prefix keys !! k = Some (str_replace prefix "" k).
Proof.
  unfold ColossalAIStrategy.mapping_loop.
  assert (forall (m : gmap string string),
             (k ∈ keys \/ m !! k = Some (str_replace prefix "" k)) ->
             foldl (fun md key => <[key := str_replace prefix "" key]> md) m keys !! k
             = Some (str_replace prefix "" k)) as H.
  { induction keys as [|x keys IH]; intros m [Hin|Hm]; simpl.
    - inversion Hin.
    - exact Hm.
    - apply IH. apply elem_of_cons in Hin as [->|Hin]; [right|now left].
      apply lookup_insert_eq.
    - apply IH. right. destruct (decide (x = k)) as [->|Hne].
      + apply lookup_insert_eq.
      + now rewrite lookup_insert_ne. }
  intros Hin. apply H. now left.
Qed.

(** The comprehension on items whose keys the mapping knows: no key is
    missing, and a new key is bound to the value of the last item that
    maps to it. *)
Lemma comprehension_lookup {V : Type} prefix (md : gmap string string)
    (items : list (string * V)) :
  (forall kv, kv ∈ items -> md !! kv.1 = Some (str_replace prefix "" kv.1)) ->
  forall acc, exists d,
    ColossalAIStrategy.comprehension md items acc = inr d /\
    forall k' v,
      d !! k' = Some v <->
      (exists pre k post,
          items = (pre ++ (k, v) :: post)%list /\ k' = str_replace prefix "" k /\
          Forall (fun kv => str_replace prefix "" kv.1 <> k') post)
      \/ (acc !! k' = Some v
          /\ Forall (fun kv => str_replace prefix "" kv.1 <> k') items).
Proof.
  induction items as [|[k0 v0] items IH]; intros Hmd acc.
  - exists acc. split; [reflexivity|]. intros k' v. split.
    + intros H. right. split; [exact H|constructor].
    + intros [(pre & k & post & Hl & _)|[H _]]; [|exact H].
      destruct pre; discriminate.
  - cbn [ColossalAIStrategy.comprehension].
    pose proof (Hmd (k0, v0) ltac:(left)) as Hk0. cbn [fst] in Hk0. rewrite Hk0.
    destruct (IH (fun kv Hin => Hmd kv (list_elem_of_further _ _ _ Hin))
                 (<[str_replace prefix "" k0 := v0]> acc)) as (d & Hd & Hlook).
    exists d. split; [exact Hd|]. intros k' v. rewrite Hlook. split.
    + intros [(pre & k & post & -> & Hk & Hpost)|[Hins Hall]].
      * left. exists ((k0, v0) :: pre), k, post. auto.
      * destruct (decide (str_replace prefix "" k0 = k')) as [Heq|Hne].
        -- rewrite Heq, lookup_insert_eq in Hins. injection Hins as ->.
           left. exists [], k0, items. auto.
        -- rewrite lookup_insert_ne in Hins by exact Hne.
           right. split; [exact Hins|]. constructor; assumption.
    + intros [(pre & k & post & Hl & Hk & Hpost)|[Hacc Hall]].
      * destruct pre as [|x pre]; simpl in Hl.
        -- injection Hl as -> -> ->. right.
           split; [|exact Hpost]. rewrite Hk. apply lookup_insert_eq.
        -- injection Hl as _ ->. left. exists pre, k, post. auto.
      * apply Forall_cons in Hall as [Hne Hall]. cbn [fst] in Hne.
        right. split; [|exact Hall]. now rewrite lookup_insert_ne.
Qed.

(** Among the items that satisfy a decidable property there is a last
    one. *)
Lemma last_such {A : Type} (P : A -> Prop) `{!forall x, Decision (P x)}
    (l : list A) :
  Exists P l ->
  exists pre y post,
    l = (pre ++ y :: post)%list /\ P y /\ Forall (fun z => ~ P z) post.
Proof.
  induction l as [|a l IH]; intros Hex; [inversion Hex|].
  destruct (decide (Exists P l)) as [Hl|Hl].
  - destruct (IH Hl) as (pre & y & post & -> & Hy & Hpost).
    exists (a :: pre), y, post. split; [reflexivity|]. split; assumption.
  - apply not_Exists_Forall in Hl; [|exact _].
    apply Exists_cons in Hex as [Ha|Hex].
    + exists [], a, l. split; [reflexivity|]. split; assumption.
    + exfalso. exact (Forall_not_Exists _ _ Hl Hex).
Qed.

(** A set made from a list is no larger than the list, and as large
    exactly when the list has no duplicate. *)
Lemma size_list_to_set_le (l : list string) :
  size (list_to_set l : gset string) <= length l
  /\ (size (list_to_set l : gset string) = length l <-> NoDup l).
Proof.
  induction l as [|x l [IHle IHeq]].
  - change (list_to_set [] : gset string) with (∅ : gset string).
    rewrite size_empty. split; [lia|]. split; [constructor|reflexivity].
  - rewrite list_to_set_cons. cbn [length].
    destruct (decide (x ∈ l)) as [Hin|Hnin].
    + assert ({[x]} ∪ list_to_set l = (list_to_set l : gset string)) as ->.
      { apply set_eq. intros y.
        rewrite elem_of_union, elem_of_singleton, elem_of_list_to_set.
        split; [intros [->|Hy]; assumption|auto]. }
      split; [lia|]. split; [lia|].
      intros [Hx _]%NoDup_cons. contradiction.
    + rewrite size_union, size_singleton.
      2:{ intros y Hy%elem_of_singleton Hy'%elem_of_list_to_set. now subst. }
      split; [lia|]. rewrite NoDup_cons. split.
      * intros Hs. split; [exact Hnin|]. apply IHeq. lia.
      * intros [_ Hnd]. apply IHeq in Hnd. lia.
Qed.

(** The prefix the method removes is never empty: it ends with the dot. *)
Lemma dotted_nonempty name : exists c p, name ++ "." = String c p.
Proof. destruct name as [|c name]; simpl; eauto. Qed.

Section StateDict.

Context {V : Type}.
Variables (name : string) (child : nat).

#[local] Abbreviation strip := (str_replace (name ++ ".") "").
#[local] Abbreviation state_dict :=
  (fun org_dict : list (string * V) =>
     ColossalAIStrategy.lightning_module_state_dict
       org_dict [(name, child)] (Some child)).

(** With the one child that is the lightning module, the method returns
    a dictionary, and a new key is bound to the value of the last item
    whose key maps to it. *)
Lemma state_dict_lookup (org_dict : list (string * V)) :
  exists d,
    state_dict org_dict = inr d /\
    forall k' v,
      d !! k' = Some v <->
      exists pre k post,
        org_dict = (pre ++ (k, v) :: post)%list /\ k' = strip k /\
        Forall (fun kv => strip kv.1 <> k') post.
Proof.
  unfold ColossalAIStrategy.lightning_module_state_dict.
  rewrite bool_decide_eq_true_2 by reflexivity.
  destruct (comprehension_lookup (name ++ ".")
              (ColossalAIStrategy.mapping_loop (name ++ ".") org_dict.*1)
              org_dict) with (acc := (∅ : gmap string V)) as (d & Hd & Hlook).
  { intros kv Hin. apply mapping_loop_lookup.
    apply list_elem_of_fmap. eauto. }
  exists d. split; [exact Hd|]. intros k' v. rewrite Hlook, lookup_empty.
  split; [intros [H|[[=] _]]; exact H|auto].
Qed.

(** X18. With one child that is the lightning module the method returns; the
    returned dictionary binds each new key, a key of the model's state
    with every occurrence of the child's name and dot removed, to the
    value of the last item that maps to it.  No [KeyError] is raised. *)
Theorem state_dict_last_wins (org_dict : list (string * V)) :
  exists d,
    ColossalAIStrategy.lightning_module_state_dict
      org_dict [(name, child)] (Some child) = inr d /\
    forall k' v,
      d !! k' = Some v <->
      exists pre k post,
        org_dict = (pre ++ (k, v) :: post)%list /\
        k' = str_replace (name ++ ".") "" k /\
        Forall (fun kv => str_replace (name ++ ".") "" kv.1 <> k') post.
Proof. apply state_dict_lookup. Qed.

(** The names bound by the result are the images of the keys. *)
Lemma state_dict_dom (org_dict : list (string * V)) (d : gmap string V) :
  state_dict org_dict = inr d ->
  dom d = list_to_set (strip <$> org_dict.*1).
Proof.
  intros Hd. destruct (state_dict_lookup org_dict) as (d' & Hd' & Hlook).
  assert (d' = d) as -> by congruence.
  apply set_eq. intros k'. rewrite elem_of_dom, elem_of_list_to_set. split.
  - intros [v (pre & k & post & -> & -> & _)%Hlook].
    apply list_elem_of_fmap. exists k. split; [reflexivity|].
    apply list_elem_of_fmap. exists (k, v). split; [reflexivity|].
    apply elem_of_app. right. left.
  - intros (k & -> & ((k0 & v) & -> & Hin)%list_elem_of_fmap)%list_elem_of_fmap.
    cbn [fst].
    destruct (last_such (fun kv : string * V => strip kv.1 = strip k0) org_dict)
      as (pre & [k v'] & post & -> & Hk & Hpost).
    { apply Exists_exists. exists (k0, v). auto. }
    exists v'. apply Hlook. exists pre, k, post. cbn [fst] in Hk. auto.
Qed.

(** X19. Items are lost exactly when two keys have the same image: the result
    never has more names than the state has keys, and has as many exactly
    when the images of the keys are pairwise distinct. *)
Theorem state_dict_size (org_dict : list (string * V)) (d : gmap string V) :
  ColossalAIStrategy.lightning_module_state_dict
    org_dict [(name, child)] (Some child) = inr d ->
  size d <= length org_dict
  /\ (size d = length org_dict
      <-> NoDup (str_replace (name ++ ".") "" <$> org_dict.*1)).
Proof.
  intros Hd. rewrite <- size_dom, (state_dict_dom org_dict d Hd).
  destruct (size_list_to_set_le (strip <$> org_dict.*1)) as [Hle Heq].
  rewrite !length_fmap in Hle, Heq. auto.
Qed.

(** X20. The wrapped model's state: when every key is the child's name, the
    dot and a name in which that prefix does not occur, and these names
    are pairwise distinct, the result binds exactly each name to its
    value. *)
Theorem state_dict_strips_prefix (items : list (string * V)) :
  NoDup items.*1 ->
  (forall r, r ∈ items.*1 -> forall a b, r <> a ++ (name ++ ".") ++ b) ->
  ColossalAIStrategy.lightning_module_state_dict
    ((fun rv => ((name ++ ".") ++ rv.1, rv.2)) <$> items)
    [(name, child)] (Some child)
  = inr (list_to_map items).
Proof.
  intros Hnd Hclean.
  assert (forall r, r ∈ items.*1 -> strip ((name ++ ".") ++ r) = r) as Hstrip.
  { intros r Hr. pose proof (Hclean r Hr) as Hr'.
    destruct (dotted_nonempty name) as (c & p & Hcp). rewrite Hcp in Hr' |- *.
    rewrite str_replace_leading. now apply str_replace_absent. }
  destruct (state_dict_lookup
              ((fun rv => ((name ++ ".") ++ rv.1, rv.2)) <$> items))
    as (d & Hd & Hlook).
  rewrite Hd. f_equal. apply map_eq. intros k'. apply option_eq. intros v.
  rewrite Hlook, <- (elem_of_list_to_map items k' v Hnd). split.
  - intros (pre & k & post & Horg & -> & _).
    assert ((k, v) ∈ (fun rv => ((name ++ ".") ++ rv.1, rv.2)) <$> items) as Hin
      by (rewrite Horg; apply elem_of_app; right; left).
    apply list_elem_of_fmap in Hin as ([r v0] & [= -> ->] & Hin).
    cbn [fst]. rewrite Hstrip; [exact Hin|].
    apply list_elem_of_fmap. exists (r, v0). auto.
  - intros Hin. destruct (list_elem_of_split _ _ Hin) as (i1 & i2 & Hitems).
    exists ((fun rv => ((name ++ ".") ++ rv.1, rv.2)) <$> i1),
           ((name ++ ".") ++ k'),
           ((fun rv => ((name ++ ".") ++ rv.1, rv.2)) <$> i2).
    split; [now rewrite Hitems, fmap_app|].
    assert (k' ∈ items.*1) as Hk'
      by (apply list_elem_of_fmap; exists (k', v); auto).
    split; [now rewrite Hstrip|].
    apply Forall_fmap, Forall_forall. intros [r2 v2] Hin2.
    unfold compose. cbn [fst].
    assert (r2 ∈ i2.*1) as Hr2 by (apply list_elem_of_fmap; exists (r2, v2); auto).
    rewrite Hitems, fmap_app, fmap_cons in Hnd.
    apply NoDup_app in Hnd as (_ & _ & [Hfresh _]%NoDup_cons). cbn [fst] in Hfresh.
    rewrite Hstrip.
    + intros ->. contradiction.
    + rewrite Hitems, fmap_app, fmap_cons. apply elem_of_app. right. now right.
Qed.

(** X21. Where the keys go.  A key in which the child's name and dot do not
    occur is kept as it is; and the occurrence is removed wherever it
    stands in the key, not only at its start: a key made of a text free
    of the first character of the prefix, the prefix, and a text in which
    the prefix does not occur, is bound without the prefix. *)
Theorem state_dict_keys (org_dict : list (string * V)) (d : gmap string V)
    (k : string) (v : V) :
  ColossalAIStrategy.lightning_module_state_dict
    org_dict [(name, child)] (Some child) = inr d ->
  (k, v) ∈ org_dict ->
  is_Some (d !! str_replace (name ++ ".") "" k) /\
  ((forall a b, k <> a ++ (name ++ ".") ++ b) ->
   str_replace (name ++ ".") "" k = k) /\
  (forall c p a r,
      name ++ "." = String c p -> count_char c a = 0 ->
      (forall a' b, r <> a' ++ (name ++ ".") ++ b) ->
      k = a ++ (name ++ ".") ++ r ->
      str_replace (name ++ ".") "" k = a ++ r).
Proof.
  intros Hd Hin. split; [|split].
  - apply elem_of_dom. rewrite (state_dict_dom org_dict d Hd).
    apply elem_of_list_to_set, list_elem_of_fmap. exists k. split; [reflexivity|].
    apply list_elem_of_fmap. exists (k, v). auto.
  - apply str_replace_absent.
  - intros c p a r Hcp Ha Hr ->. rewrite Hcp in Hr |- *.
    rewrite (str_replace_middle c p "" a r Ha). cbn [append].
    now rewrite (str_replace_absent _ _ _ Hr).
Qed.

End StateDict.

(** ** Properties of the resolver *)

Section Properties.

Context {Json Client : Type}.
Variable str_json : Json -> string.
Variable repr_str : string -> string.
Variable APP_SERVER_PORT : Z.

#[local] Abbreviation resolve :=
  (_retrieve_application_url_and_available_commands
     (Client := Client) str_json repr_str APP_SERVER_PORT).

#[local] Abbreviation local_url := ("http://localhost:" ++ str_int APP_SERVER_PORT).

(** Running a sequence runs its first part and, unless that raised, the
    rest from where the first part left the world. *)
Lemma run_bind {W A B : Type} (h : World Json Client W)
    (m : prog Json Client A) (f : A -> prog Json Client B) :
  forall w,
    run h (bind m f) w =
    match outcome (run h m w) with
    | inl e => {| outcome := inl e; trace := trace (run h m w);
                  final := final (run h m w) |}
    | inr a =>
        let r2 := run h (f a) (final (run h m w)) in
        {| outcome := outcome r2;
           trace := (trace (run h m w) ++ trace r2)%list;
           final := final r2 |}
    end.
Proof.
  induction m as [a|e|u k IH|k IH|c k IH|c pid k IH]; intros w; simpl.
  - now destruct (run h (f a) w).
  - reflexivity.
  - destruct (world_get h u w) as [r w']. rewrite IH. simpl.
    now destruct (outcome (run h (k r) w')).
  - destruct (world_new_client h w) as [r w']. rewrite IH. simpl.
    now destruct (outcome (run h (k r) w')).
  - destruct (world_get_project h c w) as [r w']. rewrite IH. simpl.
    now destruct (outcome (run h (k r) w')).
  - destruct (world_list_instances h c pid w) as [r w']. rewrite IH. simpl.
    now destruct (outcome (run h (k r) w')).
Qed.

(** The GET-and-check block makes exactly one GET, whatever it is
    answered. *)
Lemma run_get_commands {W : Type} (h : World Json Client W) (url : string) (w : W) :
  run h (get_commands str_json url) w =
  {| outcome := commands_outcome str_json url (world_get h (url ++ "/api/v1/commands") w).1;
     trace := [EvGet (url ++ "/api/v1/commands") (world_get h (url ++ "/api/v1/commands") w).1];
     final := (world_get h (url ++ "/api/v1/commands") w).2 |}.
Proof.
  unfold get_commands. simpl.
  destruct (world_get h (url ++ "/api/v1/commands") w) as [[e|resp] w']; simpl.
  - reflexivity.
  - unfold resp_json.
    destruct (status_code resp =? 200)%Z, (json resp); reflexivity.
Qed.

(** Expose the calls of a program to [run]. *)
Ltac unfold_calls :=
  unfold mbind, prog_bind, requests_get, LightningClient, _get_project,
    lightningapp_instance_service_list_lightningapp_instances.

(** A [try] statement runs its body; the handler runs only on an
    exception of the caught class. *)
Lemma run_try_except {W A : Type} (h : World Json Client W)
    (body : prog Json Client A) (handler : exn -> option (prog Json Client A)) :
  forall w,
    run h (try_except body handler) w =
    match outcome (run h body w) with
    | inr a => run h body w
    | inl e =>
        match handler e with
        | None => run h body w
        | Some hd =>
            let r2 := run h hd (final (run h body w)) in
            {| outcome := outcome r2;
               trace := (trace (run h body w) ++ trace r2)%list;
               final := final r2 |}
        end
    end.
Proof.
  induction body as [a|e|u k IH|k IH|c k IH|c pid k IH]; intros w; simpl.
  - reflexivity.
  - destruct (handler e) as [hd|]; [|reflexivity]. now destruct (run h hd w).
  - destruct (world_get h u w) as [r w']. rewrite IH. simpl.
    destruct (outcome (run h (k r) w')) as [e|a]; [|reflexivity].
    now destruct (handler e).
  - destruct (world_new_client h w) as [r w']. rewrite IH. simpl.
    destruct (outcome (run h (k r) w')) as [e|a]; [|reflexivity].
    now destruct (handler e).
  - destruct (world_get_project h c w) as [r w']. rewrite IH. simpl.
    destruct (outcome (run h (k r) w')) as [e|a]; [|reflexivity].
    now destruct (handler e).
  - destruct (world_list_instances h c pid w) as [r w']. rewrite IH. simpl.
    destruct (outcome (run h (k r) w')) as [e|a]; [|reflexivity].
    now destruct (handler e).
Qed.

(** The local attempt makes exactly one GET, to the local endpoint; only a
    connection error lets it fall through. *)
Lemma run_local_attempt {W : Type} (h : World Json Client W) (w : W) :
  run h (local_attempt (Client := Client) str_json APP_SERVER_PORT) w =
  {| outcome :=
       match commands_outcome str_json local_url
               (world_get h (local_url ++ "/api/v1/commands") w).1 with
       | inr v => inr (inl v)
       | inl ConnectionError => inr (inr true)
       | inl e => inl e
       end;
     trace := [EvGet (local_url ++ "/api/v1/commands")
                 (world_get h (local_url ++ "/api/v1/commands") w).1];
     final := (world_get h (local_url ++ "/api/v1/commands") w).2 |}.
Proof.
  unfold local_attempt. rewrite run_try_except.
  change (mbind ?f ?m) with (bind m f).
  rewrite run_bind, run_get_commands. cbn [outcome trace final].
  destruct (commands_outcome str_json local_url
              (world_get h (local_url ++ "/api/v1/commands") w).1)
    as [e|v]; cbn [outcome trace final run]; [|reflexivity].
  destruct e; reflexivity.
Qed.

(** An instance matches when its id or its name is the identifier. *)
Lemma app_matches_iff (a : Lightningapp.t) (ident : string) :
  str_eq_opt (Lightningapp.id a) (Some ident)
  || str_eq_opt (Lightningapp.name a) (Some ident) = true <->
  Lightningapp.id a = ident \/ Lightningapp.name a = ident.
Proof.
  simpl. rewrite orb_true_iff, !String.eqb_eq. reflexivity.
Qed.

(** The loop passes over instances that do not match without a call. *)
Lemma run_scan_skip {W : Type} (h : World Json Client W) (w : W)
    (ident : string) (pre rest : list Lightningapp.t) :
  Forall (fun b => Lightningapp.id b <> ident /\ Lightningapp.name b <> ident) pre ->
  run h (scan str_json (Some ident) (pre ++ rest)) w
  = run h (scan str_json (Some ident) rest) w.
Proof.
  induction 1 as [|b pre [Hid Hname] _ IH]; [reflexivity|].
  cbn [app scan].
  destruct (str_eq_opt (Lightningapp.id b) (Some ident)
            || str_eq_opt (Lightningapp.name b) (Some ident)) eqn:E.
  - apply app_matches_iff in E as [E|E]; contradiction.
  - exact IH.
Qed.

(** At the first match the loop ends: with the not-ready error when the
    instance has no address yet, with the GET-and-check block otherwise. *)
Lemma run_scan_match {W : Type} (h : World Json Client W) (w : W)
    (ident : string) (a : Lightningapp.t) (rest : list Lightningapp.t) :
  Lightningapp.id a = ident \/ Lightningapp.name a = ident ->
  run h (scan str_json (Some ident) (a :: rest)) w =
  if String.eqb (Lightningapp.url (Lightningapp.status a)) "" then
    {| outcome := inl (Exception "The application is starting. Try in a few moments.");
       trace := []; final := w |}
  else
    let url := Lightningapp.url (Lightningapp.status a) in
    let g := world_get h (url ++ "/api/v1/commands") w in
    {| outcome := match commands_outcome str_json url g.1 with
                  | inl e => inl e
                  | inr v => inr (Some v)
                  end;
       trace := [EvGet (url ++ "/api/v1/commands") g.1];
       final := g.2 |}.
Proof.
  intros Hm. apply app_matches_iff in Hm. cbn [scan]. rewrite Hm.
  destruct (String.eqb (Lightningapp.url (Lightningapp.status a)) "");
    [reflexivity|].
  change (mbind ?f ?m) with (bind m f).
  rewrite run_bind, run_get_commands. cbn [outcome trace final].
  destruct (commands_outcome str_json _ _); reflexivity.
Qed.

(** The remote lookup for a given, non-empty identifier, once the
    directory service has answered with a listing. *)
Lemma run_remote_lookup {W : Type} (h : World Json Client W) (w w1 w2 w3 : W)
    (ident : string) (c : Client) (p : Project) (apps : list Lightningapp.t) :
  ident <> "" -> _is_url (Some ident) = false ->
  world_new_client h w = (inr c, w1) ->
  world_get_project h c w1 = (inr p, w2) ->
  world_list_instances h c (project_id p) w2 = (inr apps, w3) ->
  run h (resolve (Some ident)) w =
  let s := run h (scan str_json (Some ident) apps) w3 in
  {| outcome := match outcome s with
                | inl e => inl e
                | inr (Some v) => inr v
                | inr None => inr (None, None)
                end;
     trace := ([EvNewClient (inr c); EvGetProject c (inr p);
                EvListInstances c (project_id p) (inr apps)] ++ trace s)%list;
     final := final s |}.
Proof.
  intros Hne Hurl Hc Hp Hl.
  unfold _retrieve_application_url_and_available_commands. rewrite Hurl.
  assert (truthy ident = true) as Ht by (destruct ident; [congruence|reflexivity]).
  unfold_calls. cbn [truthy_opt]. rewrite Ht. cbn [orb negb bind run].
  rewrite Hc. cbn [returned bind run]. rewrite Hp. cbn [returned bind run].
  rewrite Hl. cbn [returned bind run logged outcome trace final].
  rewrite run_bind.
  destruct (run h (scan str_json (Some ident) apps) w3) as [[e|[v|]] t w4];
    cbn; rewrite ?app_nil_r; reflexivity.
Qed.

(** With no identifier the resolver starts with the local attempt; what
    follows depends on how that attempt ended. *)
Lemma run_resolve_absent {W : Type} (h : World Json Client W) (w : W) :
  run h (resolve None) w =
  let g := world_get h (local_url ++ "/api/v1/commands") w in
  match commands_outcome str_json local_url g.1 with
  | inr v =>
      {| outcome := inr v;
         trace := [EvGet (local_url ++ "/api/v1/commands") g.1];
         final := g.2 |}
  | inl ConnectionError =>
      logged (EvGet (local_url ++ "/api/v1/commands") g.1)
        (run h
           (client ← LightningClient;
            project ← _get_project client;
            lightningapps ←
              lightningapp_instance_service_list_lightningapp_instances
                client (project_id project);
            Raise (Exception
                     ("Provide an application name, id or url with --app_id=X. Found "
                      ++ str_list repr_str (map Lightningapp.name lightningapps))))
           g.2)
  | inl e =>
      {| outcome := inl e;
         trace := [EvGet (local_url ++ "/api/v1/commands") g.1];
         final := g.2 |}
  end.
Proof.
  unfold _retrieve_application_url_and_available_commands.
  cbn [_is_url truthy_opt orb negb].
  unfold mbind, prog_bind.
  rewrite run_bind, run_local_attempt. cbn [outcome trace final].
  destruct (commands_outcome str_json local_url
              (world_get h (local_url ++ "/api/v1/commands") w).1) as [e|v].
  - destruct e; reflexivity.
  - reflexivity.
Qed.

(** C1, as the code has it.  For every identifier that begins with
    [http://] or [https://] the resolver makes exactly one call, a GET to
    the identifier followed by [/api/v1/commands], and never calls the
    directory service; on a response of status 200 it returns the
    identifier with the parsed body; on any other status it raises the
    protocol error whose message carries the parsed body when the body is
    JSON, and the decode error of [resp.json()] when it is not. *)
Theorem resolve_direct_url {W : Type} (h : World Json Client W) (w : W)
    (identifier : string) :
  String.prefix "http://" identifier = true
  \/ String.prefix "https://" identifier = true ->
  let r := run h (resolve (Some identifier)) w in
  let answer := (world_get h (identifier ++ "/api/v1/commands") w).1 in
  trace r = [EvGet (identifier ++ "/api/v1/commands") answer] /\
  gets (trace r) = [identifier ++ "/api/v1/commands"] /\
  directory_calls (trace r) = [] /\
  (forall resp body,
      answer = inr resp -> status_code resp = 200%Z -> json resp = Some body ->
      outcome r = inr (Some identifier, Some body)) /\
  (forall resp body,
      answer = inr resp -> status_code resp <> 200%Z -> json resp = Some body ->
      outcome r = inl (Exception
                         ("The server didn't process the request properly. Found "
                          ++ str_json body))) /\
  (forall resp,
      answer = inr resp -> json resp = None -> outcome r = inl JSONDecodeError).
Proof.
  intros Hprefix r answer.
  assert (_is_url (Some identifier) = true) as Hurl.
  { cbn [_is_url]. destruct Hprefix as [-> | ->]; [apply orb_true_r|reflexivity]. }
  assert (truthy identifier = true) as Ht.
  { destruct identifier; [|reflexivity]. destruct Hprefix; discriminate. }
  assert (r = run h (get_commands str_json identifier) w) as Hr.
  { subst r. unfold _retrieve_application_url_and_available_commands.
    now rewrite Hurl, Ht. }
  rewrite run_get_commands in Hr. fold answer in Hr. rewrite Hr.
  cbn [outcome trace]. repeat split.
  - intros resp body -> Hs Hj. cbn [commands_outcome]. rewrite Hj, Hs. reflexivity.
  - intros resp body -> Hs Hj. cbn [commands_outcome]. rewrite Hj.
    apply Z.eqb_neq in Hs. now rewrite Hs.
  - intros resp -> Hj. cbn [commands_outcome]. now rewrite Hj.
Qed.

(** C5. With no identifier and a local endpoint that answers 200, the
    resolver returns the local URL with the parsed body after that one
    GET, without a call to the directory service. *)
Theorem resolve_local_instance {W : Type} (h : World Json Client W) (w w' : W)
    (resp : Response Json) (body : Json) :
  world_get h (local_url ++ "/api/v1/commands") w = (inr resp, w') ->
  status_code resp = 200%Z -> json resp = Some body ->
  run h (resolve None) w =
  {| outcome := inr (Some local_url, Some body);
     trace := [EvGet (local_url ++ "/api/v1/commands") (inr resp)];
     final := w' |}
  /\ directory_calls (trace (run h (resolve None) w)) = [].
Proof.
  intros Hg Hs Hj. rewrite run_resolve_absent, Hg.
  cbn [fst snd commands_outcome]. rewrite Hj, Hs. cbn. auto.
Qed.

(** C4, as the code has it.  With no identifier, a connection failure of
    the local GET is not an error: the resolver goes on to the remote
    lookup, where it never lists the instances twice and, once client and
    project are obtained, makes exactly one list-instances call before it
    ends; a local endpoint that answers with a status other than 200
    makes it raise after that single GET, with no call to the directory
    service: the protocol error when the body is JSON, the decode error
    of [resp.json()] when it is not. *)
Theorem resolve_local_failure {W : Type} (h : World Json Client W) (w : W) :
  let g := world_get h (local_url ++ "/api/v1/commands") w in
  let r := run h (resolve None) w in
  (g.1 = inl ConnectionError ->
   (exists a t, trace r = EvGet (local_url ++ "/api/v1/commands") (inl ConnectionError)
                          :: EvNewClient a :: t) /\
   length (list_calls (trace r)) <= 1 /\
   forall c p listed w1 w2 w3,
     world_new_client h g.2 = (inr c, w1) ->
     world_get_project h c w1 = (inr p, w2) ->
     world_list_instances h c (project_id p) w2 = (listed, w3) ->
     trace r = [EvGet (local_url ++ "/api/v1/commands") (inl ConnectionError);
                EvNewClient (inr c); EvGetProject c (inr p);
                EvListInstances c (project_id p) listed] /\
     list_calls (trace r) = [EvListInstances c (project_id p) listed] /\
     exists e, outcome r = inl e) /\
  (forall resp,
     g.1 = inr resp -> status_code resp <> 200%Z ->
     trace r = [EvGet (local_url ++ "/api/v1/commands") (inr resp)] /\
     directory_calls (trace r) = [] /\
     (forall body,
        json resp = Some body ->
        outcome r = inl (Exception
                           ("The server didn't process the request properly. Found "
                            ++ str_json body))) /\
     (json resp = None -> outcome r = inl JSONDecodeError)).
Proof.
  intros g r. subst r. rewrite run_resolve_absent. fold g. cbn zeta. split.
  - intros Hg. rewrite Hg. cbn [commands_outcome]. unfold_calls. cbn [bind run].
    split; [|split].
    + destruct (world_new_client h g.2) as [a w1]. cbn [logged trace]. eauto.
    + destruct (world_new_client h g.2) as [[e|c] w1]; cbn [returned bind run];
        [cbn; lia|].
      destruct (world_get_project h c w1) as [[e|p] w2]; cbn [returned bind run];
        [cbn; lia|].
      destruct (world_list_instances h c (project_id p) w2) as [[e|apps] w3];
        cbn; lia.
    + intros c p listed w1 w2 w3 Hc Hp Hl.
      rewrite Hc. cbn [returned bind run]. rewrite Hp. cbn [returned bind run].
      rewrite Hl. destruct listed as [e|apps]; cbn; eauto.
  - intros resp Hg Hs. rewrite Hg. cbn [commands_outcome].
    apply Z.eqb_neq in Hs. rewrite Hs.
    destruct (json resp) as [body|]; cbn;
      (split; [reflexivity|]); (split; [reflexivity|]); split;
      first [discriminate|reflexivity|now intros ? [= <-]].
Qed.

(** C6. With no identifier and a local GET that fails to connect, the
    resolver raises the input error whose message lists the names of all
    instances the directory service returned; for an empty listing the
    message lists no name. *)
Theorem resolve_absent_lists_names {W : Type} (h : World Json Client W)
    (w w0 w1 w2 w3 : W) (c : Client) (p : Project) (apps : list Lightningapp.t) :
  world_get h (local_url ++ "/api/v1/commands") w = (inl ConnectionError, w0) ->
  world_new_client h w0 = (inr c, w1) ->
  world_get_project h c w1 = (inr p, w2) ->
  world_list_instances h c (project_id p) w2 = (inr apps, w3) ->
  outcome (run h (resolve None) w)
  = inl (Exception
           ("Provide an application name, id or url with --app_id=X. Found "
            ++ "[" ++ String.concat ", " (map repr_str (map Lightningapp.name apps)) ++ "]"))
  /\ (apps = [] ->
      outcome (run h (resolve None) w)
      = inl (Exception
               "Provide an application name, id or url with --app_id=X. Found []")).
Proof.
  intros Hg Hc Hp Hl.
  assert (outcome (run h (resolve None) w)
          = inl (Exception
                   ("Provide an application name, id or url with --app_id=X. Found "
                    ++ str_list repr_str (map Lightningapp.name apps)))) as Ho.
  { rewrite run_resolve_absent, Hg. cbn [fst snd commands_outcome].
    unfold_calls. cbn [bind run]. rewrite Hc. cbn [returned bind run].
    rewrite Hp. cbn [returned bind run]. rewrite Hl. reflexivity. }
  split; [exact Ho|]. intros ->. exact Ho.
Qed.

(** C2. In the remote lookup the listed instances are scanned in list
    order for the first one whose id or name is exactly the identifier.
    If that instance has the empty string for address the resolver raises
    the not-ready error; otherwise it GETs the address followed by
    [/api/v1/commands] and, on a response of status 200, returns the
    address with the parsed body. *)
Theorem resolve_first_match {W : Type} (h : World Json Client W)
    (w w1 w2 w3 : W) (identifier : string) (c : Client) (p : Project)
    (before after : list Lightningapp.t) (matched : Lightningapp.t) :
  identifier <> "" -> _is_url (Some identifier) = false ->
  world_new_client h w = (inr c, w1) ->
  world_get_project h c w1 = (inr p, w2) ->
  world_list_instances h c (project_id p) w2
  = (inr (before ++ matched :: after)%list, w3) ->
  Forall (fun b => Lightningapp.id b <> identifier
                   /\ Lightningapp.name b <> identifier) before ->
  Lightningapp.id matched = identifier \/ Lightningapp.name matched = identifier ->
  let r := run h (resolve (Some identifier)) w in
  let url := Lightningapp.url (Lightningapp.status matched) in
  let lookup := [EvNewClient (inr c); EvGetProject c (inr p);
                 EvListInstances c (project_id p)
                   (inr (before ++ matched :: after)%list)] in
  (url = "" ->
   outcome r = inl (Exception "The application is starting. Try in a few moments.")
   /\ trace r = lookup) /\
  (url <> "" ->
   let answer := (world_get h (url ++ "/api/v1/commands") w3).1 in
   trace r = (lookup ++ [EvGet (url ++ "/api/v1/commands") answer])%list /\
   forall resp body,
     answer = inr resp -> status_code resp = 200%Z -> json resp = Some body ->
     outcome r = inr (Some url, Some body)).
Proof.
  intros Hne Hurl Hc Hp Hl Hbefore Hmatch r url lookup. subst r.
  rewrite (run_remote_lookup h w w1 w2 w3 identifier c p _ Hne Hurl Hc Hp Hl).
  rewrite (run_scan_skip h w3 identifier before _ Hbefore).
  rewrite (run_scan_match h w3 identifier matched after Hmatch).
  fold url. cbn zeta. split.
  - intros ->. cbn. auto.
  - intros Hu. apply String.eqb_neq in Hu. rewrite Hu. cbn [outcome trace].
    split; [reflexivity|].
    intros resp body -> Hs Hj. cbn [commands_outcome]. now rewrite Hj, Hs.
Qed.


(** C7. For every given identifier that does not begin with [http://] or
    [https://], when the directory listing holds no instance whose id or
    name is the identifier, the resolver returns the pair of two absent
    values and raises nothing. *)
Theorem resolve_not_found {W : Type} (h : World Json Client W)
    (w w1 w2 w3 : W) (identifier : string) (c : Client) (p : Project)
    (apps : list Lightningapp.t) :
  _is_url (Some identifier) = false ->
  world_new_client h w = (inr c, w1) ->
  world_get_project h c w1 = (inr p, w2) ->
  world_list_instances h c (project_id p) w2 = (inr apps, w3) ->
  Forall (fun b => Lightningapp.id b <> identifier
                   /\ Lightningapp.name b <> identifier) apps ->
  outcome (run h (resolve (Some identifier)) w) = inr (None, None).
Proof.
  intros Hurl Hc Hp Hl Hnone.
  destruct (decide (identifier = "")) as [->|Hne].
  - reflexivity.
  - rewrite (run_remote_lookup h w w1 w2 w3 identifier c p apps Hne Hurl Hc Hp Hl).
    rewrite <- (app_nil_r apps).
    rewrite (run_scan_skip h w3 identifier apps [] Hnone). reflexivity.
Qed.

(** The outcome and the calls of a program are a function of the answers
    it receives: two runs, in any two worlds, that are given the same
    answers in the same order end alike and have asked the same. *)
Lemma run_deterministic {W1 W2 A : Type}
    (h1 : World Json Client W1) (h2 : World Json Client W2)
    (p : prog Json Client A) :
  forall w1 w2,
    map answer_of (trace (run h1 p w1)) = map answer_of (trace (run h2 p w2)) ->
    outcome (run h1 p w1) = outcome (run h2 p w2)
    /\ trace (run h1 p w1) = trace (run h2 p w2).
Proof.
  induction p as [a|e|u k IH|k IH|c k IH|c pid k IH]; intros w1 w2; cbn [run].
  - auto.
  - auto.
  - destruct (world_get h1 u w1) as [r1 w1'], (world_get h2 u w2) as [r2 w2'].
    cbn. intros [= <- Ht]. destruct (IH r1 w1' w2' Ht) as [-> ->]. auto.
  - destruct (world_new_client h1 w1) as [r1 w1'],
      (world_new_client h2 w2) as [r2 w2'].
    cbn. intros [= <- Ht]. destruct (IH r1 w1' w2' Ht) as [-> ->]. auto.
  - destruct (world_get_project h1 c w1) as [r1 w1'],
      (world_get_project h2 c w2) as [r2 w2'].
    cbn. intros [= <- Ht]. destruct (IH r1 w1' w2' Ht) as [-> ->]. auto.
  - destruct (world_list_instances h1 c pid w1) as [r1 w1'],
      (world_list_instances h2 c pid w2) as [r2 w2'].
    cbn. intros [= <- Ht]. destruct (IH r1 w1' w2' Ht) as [-> ->]. auto.
Qed.

(** In a stationary world a program ends alike from every state. *)
Lemma run_stationary {W A : Type} (h : World Json Client W)
    (p : prog Json Client A) :
  stationary h ->
  forall w w',
    outcome (run h p w) = outcome (run h p w')
    /\ trace (run h p w) = trace (run h p w').
Proof.
  intros (Hget & Hclient & Hproject & Hlist) w w'.
  apply run_deterministic.
  revert w w'.
  induction p as [a|e|u k IH|k IH|c k IH|c pid k IH]; intros w w'; cbn [run].
  - reflexivity.
  - reflexivity.
  - specialize (Hget u w w').
    destruct (world_get h u w) as [r1 w1], (world_get h u w') as [r2 w2].
    cbn in Hget |- *. subst r2. f_equal. apply IH.
  - specialize (Hclient w w').
    destruct (world_new_client h w) as [r1 w1], (world_new_client h w') as [r2 w2].
    cbn in Hclient |- *. subst r2. f_equal. apply IH.
  - specialize (Hproject c w w').
    destruct (world_get_project h c w) as [r1 w1],
      (world_get_project h c w') as [r2 w2].
    cbn in Hproject |- *. subst r2. f_equal. apply IH.
  - specialize (Hlist c pid w w').
    destruct (world_list_instances h c pid w) as [r1 w1],
      (world_list_instances h c pid w') as [r2 w2].
    cbn in Hlist |- *. subst r2. f_equal. apply IH.
Qed.

(** Calling the resolver again, in the state the first call left a
    stationary world in, gives the same result through the same calls. *)
Corollary resolve_repeatable {W : Type} (h : World Json Client W) (w : W)
    (identifier : option string) :
  stationary h ->
  let first := run h (resolve identifier) w in
  let second := run h (resolve identifier) (final first) in
  outcome second = outcome first /\ trace second = trace first.
Proof.
  intros Hs first second.
  destruct (run_stationary h (resolve identifier) Hs (final first) w); auto.
Qed.

(** ** Further properties of the resolver *)

(** The loop, whatever the listing: nothing happens without a match, and
    the first match decides. *)
Lemma run_scan {W : Type} (h : World Json Client W) (w : W)
    (ident : string) (apps : list Lightningapp.t) :
  run h (scan str_json (Some ident) apps) w =
  match first_match ident apps with
  | None => {| outcome := inr None; trace := []; final := w |}
  | Some a =>
      if String.eqb (Lightningapp.url (Lightningapp.status a)) "" then
        {| outcome := inl (Exception "The application is starting. Try in a few moments.");
           trace := []; final := w |}
      else
        let url := Lightningapp.url (Lightningapp.status a) in
        let g := world_get h (url ++ "/api/v1/commands") w in
        {| outcome := match commands_outcome str_json url g.1 with
                      | inl e => inl e
                      | inr v => inr (Some v)
                      end;
           trace := [EvGet (url ++ "/api/v1/commands") g.1];
           final := g.2 |}
  end.
Proof.
  unfold first_match. induction apps as [|a apps IH]; [reflexivity|].
  cbn [List.find]. destruct (app_matches ident a) eqn:E.
  - apply run_scan_match. apply app_matches_iff. exact E.
  - rewrite <- IH. cbn [scan]. unfold app_matches in E. cbn [str_eq_opt].
    now rewrite E.
Qed.

(** A URL identifier passes the assertion of line 59: the resolver is the
    GET-and-check block on it. *)
Lemma run_resolve_url {W : Type} (h : World Json Client W) (w : W) (s : string) :
  _is_url (Some s) = true ->
  run h (resolve (Some s)) w = run h (get_commands str_json s) w.
Proof.
  intros Hurl. unfold _retrieve_application_url_and_available_commands.
  rewrite Hurl.
  assert (truthy s = true) as ->; [|reflexivity].
  destruct s; [discriminate Hurl|reflexivity].
Qed.

(** A given identifier that is no URL, whatever the directory service
    answers: each of its calls is made once the one before it returned,
    and the loop runs on the listing. *)
Lemma run_resolve_given {W : Type} (h : World Json Client W) (w : W) (s : string) :
  s <> "" -> _is_url (Some s) = false ->
  run h (resolve (Some s)) w =
  let '(rc, w1) := world_new_client h w in
  match rc with
  | inl e => {| outcome := inl e; trace := [EvNewClient (inl e)]; final := w1 |}
  | inr c =>
      let '(rp, w2) := world_get_project h c w1 in
      match rp with
      | inl e => {| outcome := inl e;
                    trace := [EvNewClient (inr c); EvGetProject c (inl e)];
                    final := w2 |}
      | inr p =>
          let '(rl, w3) := world_list_instances h c (project_id p) w2 in
          match rl with
          | inl e => {| outcome := inl e;
                        trace := [EvNewClient (inr c); EvGetProject c (inr p);
                                  EvListInstances c (project_id p) (inl e)];
                        final := w3 |}
          | inr apps =>
              let sc := run h (scan str_json (Some s) apps) w3 in
              {| outcome := match outcome sc with
                            | inl e => inl e
                            | inr (Some v) => inr v
                            | inr None => inr (None, None)
                            end;
                 trace := ([EvNewClient (inr c); EvGetProject c (inr p);
                            EvListInstances c (project_id p) (inr apps)]
                           ++ trace sc)%list;
                 final := final sc |}
          end
      end
  end.
Proof.
  intros Hne Hurl.
  destruct (world_new_client h w) as [[e|c] w1] eqn:Hc.
  - unfold _retrieve_application_url_and_available_commands. rewrite Hurl.
    assert (truthy s = true) as Ht by (destruct s; [congruence|reflexivity]).
    unfold_calls. cbn [truthy_opt]. rewrite Ht. cbn [orb negb bind run].
    rewrite Hc. reflexivity.
  - destruct (world_get_project h c w1) as [[e|p] w2] eqn:Hp.
    + unfold _retrieve_application_url_and_available_commands. rewrite Hurl.
      assert (truthy s = true) as Ht by (destruct s; [congruence|reflexivity]).
      unfold_calls. cbn [truthy_opt]. rewrite Ht. cbn [orb negb bind run].
      rewrite Hc. cbn [returned bind run]. rewrite Hp. reflexivity.
    + destruct (world_list_instances h c (project_id p) w2) as [[e|apps] w3] eqn:Hl.
      * unfold _retrieve_application_url_and_available_commands. rewrite Hurl.
        assert (truthy s = true) as Ht by (destruct s; [congruence|reflexivity]).
        unfold_calls. cbn [truthy_opt]. rewrite Ht. cbn [orb negb bind run].
        rewrite Hc. cbn [returned bind run]. rewrite Hp. cbn [returned bind run].
        rewrite Hl. reflexivity.
      * apply (run_remote_lookup h w w1 w2 w3 s c p apps Hne Hurl Hc Hp Hl).
Qed.

(** The trace of the loop is empty or one GET. *)
Lemma run_scan_trace {W : Type} (h : World Json Client W) (w : W)
    (ident : string) (apps : list Lightningapp.t) :
  trace (run h (scan str_json (Some ident) apps) w) = []
  \/ exists u r, trace (run h (scan str_json (Some ident) apps) w) = [EvGet u r].
Proof.
  rewrite run_scan. destruct (first_match ident apps) as [a|]; [|now left].
  destruct (String.eqb _ ""); [now left|right]. cbn. eauto.
Qed.

(** Split every answer of the world that the goal waits for. *)
Ltac split_answers h :=
  repeat first
    [ match goal with
      | |- context [world_new_client h ?w] =>
          destruct (world_new_client h w) as [[?|?] ?]
      | |- context [world_get_project h ?c ?w] =>
          destruct (world_get_project h c w) as [[?|?] ?]
      | |- context [world_list_instances h ?c ?pid ?w] =>
          destruct (world_list_instances h c pid w) as [[?|?] ?]
      end
    | progress cbn [returned bind run logged outcome trace final] ].

(** X8. The calls of a run follow one protocol, for every identifier and in
    every world: at most one GET is made, the project is resolved only
    with the client just constructed and the instances are listed only
    for the project just resolved, each of these at most once. *)
Theorem resolve_call_protocol {W : Type} (h : World Json Client W) (w : W)
    (identifier : option string) :
  let t := trace (run h (resolve identifier) w) in
  length (gets t) <= 1 /\
  (directory_calls t = []
   \/ (exists e, directory_calls t = [EvNewClient (inl e)])
   \/ (exists c e, directory_calls t = [EvNewClient (inr c); EvGetProject c (inl e)])
   \/ (exists c p listed,
         directory_calls t = [EvNewClient (inr c); EvGetProject c (inr p);
                              EvListInstances c (project_id p) listed])).
Proof.
  destruct identifier as [s|].
  - destruct (_is_url (Some s)) eqn:Hurl.
    + rewrite (run_resolve_url h w s Hurl), run_get_commands. cbn. auto.
    + destruct (decide (s = "")) as [->|Hne]; [cbn; auto|].
      rewrite (run_resolve_given h w s Hne Hurl).
      split_answers h; try (cbn; split; [lia|]; eauto 10).
      destruct (run_scan_trace h w2 s l) as [Ht|(u & r & Ht)]; rewrite Ht; cbn;
        (split; [lia|]); eauto 10.
  - rewrite run_resolve_absent. cbn zeta.
    destruct (commands_outcome str_json local_url _) as [e|v]; [|cbn; auto].
    destruct e; try (cbn; auto; fail).
    unfold_calls. cbn [bind run].
    split_answers h; cbn; (split; [lia|]); eauto 10.
Qed.

(** The two ways the resolver returns: the pair of line 97, or the pair
    the GET-and-check block returns after its GET. *)
Lemma resolve_result_cases {W : Type} (h : World Json Client W) (w : W)
    (identifier : option string) (url : option string) (manifest : option Json) :
  outcome (run h (resolve identifier) w) = inr (url, manifest) ->
  (url = None /\ manifest = None)
  \/ exists u body resp t,
       url = Some u /\ manifest = Some body /\
       trace (run h (resolve identifier) w)
       = (t ++ [EvGet (u ++ "/api/v1/commands") (inr resp)])%list /\
       status_code resp = 200%Z /\ json resp = Some body.
Proof.
  assert (forall u0 (g : result (Response Json) * W) v0,
             commands_outcome str_json u0 g.1 = inr v0 ->
             exists body resp, v0 = (Some u0, Some body) /\ g.1 = inr resp /\
               status_code resp = 200%Z /\ json resp = Some body) as Hsound.
  { intros u0 [[e|resp] w'] v0; cbn; [discriminate|].
    destruct (json resp) as [body|] eqn:Hj; [|discriminate].
    destruct (status_code resp =? 200)%Z eqn:Hs; [|discriminate].
    intros [= <-]. apply Z.eqb_eq in Hs. eauto 10. }
  destruct identifier as [s|].
  - destruct (_is_url (Some s)) eqn:Hurl.
    + rewrite (run_resolve_url h w s Hurl), run_get_commands. cbn [outcome trace].
      intros (body & resp & [= -> ->] & Hg & Hs & Hj)%Hsound.
      right. exists s, body, resp, []. rewrite Hg. auto.
    + destruct (decide (s = "")) as [->|Hne]; [cbn; intros [= <- <-]; auto|].
      rewrite (run_resolve_given h w s Hne Hurl).
      split_answers h; try discriminate.
      rewrite run_scan. destruct (first_match s l) as [a|];
        [|cbn; intros [= <- <-]; auto].
      destruct (String.eqb _ ""); [discriminate|]. cbn [outcome trace].
      destruct (commands_outcome str_json _ _) as [e|v] eqn:Hv; [discriminate|].
      intros [= ->].
      apply Hsound in Hv as (body & resp & [= -> ->] & Hg & Hs & Hj).
      right. exists (Lightningapp.url (Lightningapp.status a)), body, resp.
      eexists. rewrite Hg. repeat split; try eassumption.
  - rewrite run_resolve_absent. cbn zeta.
    destruct (commands_outcome str_json local_url _) as [e|v] eqn:Hv.
    + destruct e; try discriminate.
      unfold_calls. cbn [bind run]. split_answers h; discriminate.
    + cbn [outcome trace]. intros [= ->].
      apply Hsound in Hv as (body & resp & [= -> ->] & Hg & Hs & Hj).
      right. exists local_url, body, resp, []. rewrite Hg. auto.
Qed.

(** X9. A returned URL was checked.  Whenever the resolver returns a pair
    whose first component is a URL, the last call of the run is the GET
    to that URL followed by [/api/v1/commands], that GET was answered
    with status 200, and the second component of the pair is the value
    [resp.json()] gave for that answer (kept under [Some] here; for the
    body [null] it is Python's [None]).  A pair whose first component is
    [None] is the pair [None, None] of line 97. *)
Theorem resolve_result_sound {W : Type} (h : World Json Client W) (w : W)
    (identifier : option string) (url : option string) (manifest : option Json) :
  outcome (run h (resolve identifier) w) = inr (url, manifest) ->
  (url = None -> manifest = None) /\
  (forall u,
      url = Some u ->
      exists body resp t,
        manifest = Some body /\
        trace (run h (resolve identifier) w)
        = (t ++ [EvGet (u ++ "/api/v1/commands") (inr resp)])%list /\
        status_code resp = 200%Z /\ json resp = Some body).
Proof.
  intros Ho.
  destruct (resolve_result_cases h w identifier url manifest Ho)
    as [[-> ->]|(u & body & resp & t & -> & -> & Ht & Hs & Hj)].
  - split; [reflexivity|discriminate].
  - split; [discriminate|]. intros u' [= <-]. eauto 10.
Qed.

(** X10. The silent not-found result has one cause only: a given identifier
    that is no URL and that is the empty string (no call is made) or
    names no instance of the listing the directory service returned (no
    GET is made).  It is never the result for a URL or for no identifier. *)
Theorem resolve_not_found_only {W : Type} (h : World Json Client W) (w : W)
    (identifier : option string) :
  outcome (run h (resolve identifier) w) = inr (None, None) ->
  exists s,
    identifier = Some s /\ _is_url (Some s) = false /\
    ((s = "" /\ trace (run h (resolve identifier) w) = [])
     \/ exists c p apps,
          trace (run h (resolve identifier) w)
          = [EvNewClient (inr c); EvGetProject c (inr p);
             EvListInstances c (project_id p) (inr apps)] /\
          Forall (fun b => Lightningapp.id b <> s /\ Lightningapp.name b <> s) apps).
Proof.
  assert (forall u0 (r : result (Response Json)),
             commands_outcome str_json u0 r <> inr (None, None)) as Hsome.
  { intros u0 [e|resp]; cbn; [discriminate|].
    destruct (json resp); [|discriminate].
    destruct (status_code resp =? 200)%Z; discriminate. }
  destruct identifier as [s|].
  - destruct (_is_url (Some s)) eqn:Hurl.
    + rewrite (run_resolve_url h w s Hurl), run_get_commands. cbn [outcome].
      intros Ho. now apply Hsome in Ho.
    + intros Ho. exists s. split; [reflexivity|]. split; [exact Hurl|].
      destruct (decide (s = "")) as [->|Hne]; [left; auto|right].
      revert Ho. rewrite (run_resolve_given h w s Hne Hurl).
      split_answers h; try discriminate.
      rewrite run_scan. destruct (first_match s l) as [a|] eqn:Hfind.
      * destruct (String.eqb _ ""); [discriminate|]. cbn [outcome].
        destruct (commands_outcome str_json _ _) as [e|v] eqn:Hv; [discriminate|].
        intros [= ->]. now apply Hsome in Hv.
      * intros _. eexists _, _, l. split; [reflexivity|].
        apply List.Forall_forall. intros b Hb.
        pose proof (List.find_none _ _ Hfind b Hb) as Hm.
        unfold app_matches in Hm. apply orb_false_iff in Hm as [H1 H2].
        apply String.eqb_neq in H1, H2. auto.
  - rewrite run_resolve_absent. cbn zeta.
    destruct (commands_outcome str_json local_url _) as [e|v] eqn:Hv.
    + destruct e; try discriminate.
      unfold_calls. cbn [bind run]. split_answers h; discriminate.
    + cbn [outcome]. intros [= ->]. now apply Hsome in Hv.
Qed.

(** X11. An exception of the directory service is raised unchanged and ends
    the run: when the client cannot be constructed no project is asked
    for, when the project cannot be resolved nothing is listed, and when
    the listing fails no GET is made. *)
Theorem resolve_directory_errors_propagate {W : Type} (h : World Json Client W)
    (w : W) (identifier : string) :
  identifier <> "" -> _is_url (Some identifier) = false ->
  let r := run h (resolve (Some identifier)) w in
  (forall e w1,
      world_new_client h w = (inl e, w1) ->
      outcome r = inl e /\ trace r = [EvNewClient (inl e)]) /\
  (forall c e w1 w2,
      world_new_client h w = (inr c, w1) ->
      world_get_project h c w1 = (inl e, w2) ->
      outcome r = inl e /\ trace r = [EvNewClient (inr c); EvGetProject c (inl e)]) /\
  (forall c p e w1 w2 w3,
      world_new_client h w = (inr c, w1) ->
      world_get_project h c w1 = (inr p, w2) ->
      world_list_instances h c (project_id p) w2 = (inl e, w3) ->
      outcome r = inl e /\
      trace r = [EvNewClient (inr c); EvGetProject c (inr p);
                 EvListInstances c (project_id p) (inl e)]).
Proof.
  intros Hne Hurl r. subst r. rewrite (run_resolve_given h w _ Hne Hurl).
  split; [|split].
  - intros e w1 ->. auto.
  - intros c e w1 w2 -> ->. auto.
  - intros c p e w1 w2 w3 -> -> ->. auto.
Qed.

(** X12. For a URL identifier a failed GET is not forgiven, a connection error
    included: the exception is raised as it is; and a body that is not
    JSON raises the decode error whatever the status, 200 included. *)
Theorem resolve_direct_url_failures {W : Type} (h : World Json Client W)
    (w : W) (identifier : string) :
  _is_url (Some identifier) = true ->
  let r := run h (resolve (Some identifier)) w in
  let answer := (world_get h (identifier ++ "/api/v1/commands") w).1 in
  (forall e, answer = inl e -> outcome r = inl e) /\
  (forall resp, answer = inr resp -> json resp = None ->
                outcome r = inl JSONDecodeError).
Proof.
  intros Hurl r answer. subst r.
  rewrite (run_resolve_url h w _ Hurl), run_get_commands. fold answer.
  cbn [outcome]. split.
  - now intros e ->.
  - intros resp -> Hj. cbn. now rewrite Hj.
Qed.

(** X13. With no identifier only a connection error of the local GET leads to
    the remote lookup: any other exception of the GET is raised as it is,
    and a local body that is not JSON raises the decode error; in both
    cases the GET is the only call. *)
Theorem resolve_local_failures_raise {W : Type} (h : World Json Client W) (w : W) :
  let r := run h (resolve None) w in
  let answer := (world_get h (local_url ++ "/api/v1/commands") w).1 in
  (forall e, answer = inl e -> e <> ConnectionError ->
             outcome r = inl e /\
             trace r = [EvGet (local_url ++ "/api/v1/commands") (inl e)]) /\
  (forall resp, answer = inr resp -> json resp = None ->
                outcome r = inl JSONDecodeError /\
                trace r = [EvGet (local_url ++ "/api/v1/commands") (inr resp)]).
Proof.
  intros r answer. subst r answer. rewrite run_resolve_absent. cbn zeta.
  split.
  - intros e -> He. cbn [commands_outcome]. destruct e; try (split; reflexivity).
    now destruct He.
  - intros resp -> Hj. cbn [commands_outcome]. rewrite Hj. auto.
Qed.

(** X14. In the remote lookup, once an instance with an address is matched,
    the GET to it decides: an exception of the GET is raised as it is, a
    status other than 200 raises the protocol error with the body, and a
    body that is not JSON raises the decode error. *)
Theorem resolve_remote_failures {W : Type} (h : World Json Client W)
    (w w1 w2 w3 : W) (identifier : string) (c : Client) (p : Project)
    (apps : list Lightningapp.t) (matched : Lightningapp.t) :
  identifier <> "" -> _is_url (Some identifier) = false ->
  world_new_client h w = (inr c, w1) ->
  world_get_project h c w1 = (inr p, w2) ->
  world_list_instances h c (project_id p) w2 = (inr apps, w3) ->
  first_match identifier apps = Some matched ->
  Lightningapp.url (Lightningapp.status matched) <> "" ->
  let r := run h (resolve (Some identifier)) w in
  let url := Lightningapp.url (Lightningapp.status matched) in
  let answer := (world_get h (url ++ "/api/v1/commands") w3).1 in
  (forall e, answer = inl e -> outcome r = inl e) /\
  (forall resp body,
      answer = inr resp -> status_code resp <> 200%Z -> json resp = Some body ->
      outcome r = inl (Exception
                         ("The server didn't process the request properly. Found "
                          ++ str_json body))) /\
  (forall resp, answer = inr resp -> json resp = None ->
                outcome r = inl JSONDecodeError).
Proof.
  intros Hne Hurl Hc Hp Hl Hfind Haddr r url answer. subst r.
  rewrite (run_resolve_given h w _ Hne Hurl), Hc, Hp, Hl, run_scan, Hfind.
  apply String.eqb_neq in Haddr. rewrite Haddr. cbn [outcome].
  fold url. fold answer. split; [|split].
  - now intros e ->.
  - intros resp body -> Hs Hj. cbn. rewrite Hj.
    apply Z.eqb_neq in Hs. now rewrite Hs.
  - intros resp -> Hj. cbn. now rewrite Hj.
Qed.

(** X15. With no identifier the resolver can only succeed locally: whatever it
    returns is the local URL with the body of a 200 answer to the single
    GET of the run.  After a local connection error it always raises. *)
Theorem resolve_absent_only_local {W : Type} (h : World Json Client W) (w : W)
    (v : option string * option Json) :
  outcome (run h (resolve None) w) = inr v ->
  exists resp body,
    (world_get h (local_url ++ "/api/v1/commands") w).1 = inr resp /\
    status_code resp = 200%Z /\ json resp = Some body /\
    v = (Some local_url, Some body) /\
    trace (run h (resolve None) w)
    = [EvGet (local_url ++ "/api/v1/commands") (inr resp)].
Proof.
  rewrite run_resolve_absent. cbn zeta.
  destruct (world_get h (local_url ++ "/api/v1/commands") w) as [[e|resp] w0];
    cbn [fst snd commands_outcome].
  - destruct e; try discriminate.
    unfold_calls. cbn [bind run]. split_answers h; discriminate.
  - destruct (json resp) as [body|] eqn:Hj; [|discriminate].
    destruct (status_code resp =? 200)%Z eqn:Hs; [|discriminate].
    cbn [outcome trace]. intros [= <-]. apply Z.eqb_eq in Hs.
    exists resp, body. auto.
Qed.

(** How the GET-and-check block can fail. *)
Lemma commands_outcome_inl (url : string) (r : result (Response Json)) (e : exn) :
  commands_outcome str_json url r = inl e ->
  r = inl e \/ e = JSONDecodeError
  \/ exists body,
       e = Exception ("The server didn't process the request properly. Found "
                      ++ str_json body).
Proof.
  destruct r as [e'|resp]; cbn; [intros [= ->]; auto|].
  destruct (json resp) as [body|]; [|intros [= <-]; auto].
  destruct (status_code resp =? 200)%Z; [discriminate|].
  intros [= <-]. eauto.
Qed.

(** X16. What the resolver raises, for every identifier and in every world:
    the exception a collaborator raised at the last call made, the decode
    error of a body that is not JSON, or one of its own three errors
    (protocol, not ready, no identifier).  It raises nothing else; in
    particular its assertion never fails. *)
Theorem resolve_raises_only {W : Type} (h : World Json Client W) (w : W)
    (identifier : option string) (e : exn) :
  outcome (run h (resolve identifier) w) = inl e ->
  (exists ev, last (trace (run h (resolve identifier) w)) = Some ev
              /\ raised_by ev = Some e)
  \/ e = JSONDecodeError
  \/ (exists body,
        e = Exception ("The server didn't process the request properly. Found "
                       ++ str_json body))
  \/ e = Exception "The application is starting. Try in a few moments."
  \/ (exists names,
        identifier = None /\
        e = Exception ("Provide an application name, id or url with --app_id=X. Found "
                       ++ str_list repr_str names)).
Proof.
  assert (forall u u' (g : result (Response Json)) t,
             commands_outcome str_json u g = inl e ->
             (exists ev, last (t ++ [EvGet (Client := Client) u' g])%list = Some ev
                         /\ raised_by ev = Some e)
             \/ e = JSONDecodeError
             \/ (exists body,
                   e = Exception ("The server didn't process the request properly. Found "
                                  ++ str_json body))) as Hget.
  { intros u u' g t [->|[->|Hb]]%commands_outcome_inl; auto.
    left. eexists. rewrite last_snoc. split; reflexivity. }
  destruct identifier as [s|].
  - destruct (_is_url (Some s)) eqn:Hurl.
    + rewrite (run_resolve_url h w s Hurl), run_get_commands. cbn [outcome trace].
      intros Ho. destruct (Hget _ (s ++ "/api/v1/commands") _ [] Ho) as [H|[H|H]];
        [left; exact H|right; left; exact H|right; right; left; exact H].
    + destruct (decide (s = "")) as [->|Hne]; [discriminate|].
      rewrite (run_resolve_given h w s Hne Hurl).
      split_answers h; try (intros [= <-]; left; eexists; split; reflexivity).
      rewrite run_scan. destruct (first_match s l) as [a|]; [|discriminate].
      destruct (String.eqb _ ""); [intros [= <-]; auto 10|].
      cbn [outcome trace].
      destruct (commands_outcome str_json _ _) as [e'|v] eqn:Hv; [|discriminate].
      intros [= ->].
      destruct (Hget _ (Lightningapp.url (Lightningapp.status a) ++ "/api/v1/commands")
                  _ [EvNewClient (inr c); EvGetProject c (inr p);
                     EvListInstances c (project_id p) (inr l)] Hv)
        as [H|[H|H]];
        [left; exact H|right; left; exact H|right; right; left; exact H].
  - rewrite run_resolve_absent. cbn zeta.
    destruct (commands_outcome str_json local_url _) as [e'|v] eqn:Hv;
      [|discriminate].
    destruct e' as [m|m| | | |m];
      try (cbn [outcome trace]; intros [= <-];
           destruct (Hget _ (local_url ++ "/api/v1/commands") _ [] Hv)
             as [H|[H|H]];
           [left; exact H|right; left; exact H|right; right; left; exact H]).
    unfold_calls. cbn [bind run].
    split_answers h; cbn [app last];
      try (intros [= <-]; left; eexists; split; reflexivity).
    intros [= <-]. do 4 right. eauto.
Qed.

End Properties.

(** ** The properties on the sample worlds *)

(** The direct URL [http://x]: one GET, the manifest returned. *)
Lemma resolve_direct_url_witness :
  (String.prefix "http://" "http://x" = true
   \/ String.prefix "https://" "http://x" = true) /\
  let r := run (still_world sample_web sample_listing)
               (resolve_sample (Some "http://x")) tt in
  gets (trace r) = ["http://x/api/v1/commands"] /\
  directory_calls (trace r) = [] /\
  outcome r = inr (Some "http://x", Some "{'commands': []}").
Proof.
  assert (String.prefix "http://" "http://x" = true
          \/ String.prefix "https://" "http://x" = true) as H
    by (left; reflexivity).
  split; [exact H|].
  destruct (resolve_direct_url (fun j => j) quoted 7501
              (still_world sample_web sample_listing) tt "http://x" H)
    as (_ & Hgets & Hdir & Hok & _).
  split; [exact Hgets|]. split; [exact Hdir|].
  apply (Hok {| status_code := 200; json := Some "{'commands': []}" |});
    reflexivity.
Defined.

(** C1 as the specification words it fails on an answer that is not
    JSON: the gateway answers 502 for the URL [http://w], and what is
    raised is no [Exception]: it is the decode error. *)
Lemma resolve_direct_url_not_json :
  ~ (String.prefix "http://" "http://w" = true ->
     forall resp,
       (world_get (still_world gateway_web []) "http://w/api/v1/commands" tt).1
       = inr resp ->
       status_code resp <> 200%Z ->
       exists msg,
         outcome (run (still_world gateway_web [])
                      (resolve_sample (Some "http://w")) tt)
         = inl (Exception msg)).
Proof.
  intros H.
  destruct (H eq_refl {| status_code := 502; json := None |} eq_refl)
    as [msg Hmsg]; [discriminate|].
  discriminate Hmsg.
Qed.

(** The listing of the specification: [bar] resolves to [http://x], [a]
    names an instance that has no address yet. *)
Lemma resolve_first_match_witness :
  outcome (run (still_world sample_web sample_listing)
               (resolve_sample (Some "bar")) tt)
  = inr (Some "http://x", Some "{'commands': []}")
  /\ outcome (run (still_world sample_web sample_listing)
                  (resolve_sample (Some "a")) tt)
     = inl (Exception "The application is starting. Try in a few moments.").
Proof.
  split.
  - refine (proj2 (proj2 (resolve_first_match (fun j => j) quoted 7501
        (still_world sample_web sample_listing) tt tt tt tt "bar" tt
        {| project_id := "p1" |}
        [ {| Lightningapp.id := "a"; Lightningapp.name := "foo";
             Lightningapp.status := {| Lightningapp.url := "" |} |} ]
        []
        {| Lightningapp.id := "b"; Lightningapp.name := "bar";
           Lightningapp.status := {| Lightningapp.url := "http://x" |} |}
        _ _ _ _ _ _ _) _)
      {| status_code := 200; json := Some "{'commands': []}" |}
      "{'commands': []}" _ _ _);
      try reflexivity; try discriminate.
    + repeat constructor; discriminate.
    + right; reflexivity.
  - refine (proj1 (proj1 (resolve_first_match (fun j => j) quoted 7501
        (still_world sample_web sample_listing) tt tt tt tt "a" tt
        {| project_id := "p1" |}
        []
        [ {| Lightningapp.id := "b"; Lightningapp.name := "bar";
             Lightningapp.status := {| Lightningapp.url := "http://x" |} |} ]
        {| Lightningapp.id := "a"; Lightningapp.name := "foo";
           Lightningapp.status := {| Lightningapp.url := "" |} |}
        _ _ _ _ _ _ _) _));
      try reflexivity; try discriminate.
    + constructor.
    + left; reflexivity.
Defined.



(** C4 as the specification words it fails twice.  A local endpoint that
    answers 502 with a page that is not JSON makes the resolver raise the
    decode error, which is no [Exception]; and when the local GET fails
    to connect and the directory service refuses the client, the run
    ends without a list-instances call. *)
Lemma resolve_local_failure_not_as_stated :
  ~ (forall resp,
       (world_get (still_world
                     (local_web {| status_code := 502; json := None |}) [])
                  "http://localhost:7501/api/v1/commands" tt).1 = inr resp ->
       status_code resp <> 200%Z ->
       exists msg,
         outcome (run (still_world
                         (local_web {| status_code := 502; json := None |}) [])
                      (resolve_sample None) tt)
         = inl (Exception msg))
  /\ ~ ((world_get (refusing_world sample_web)
                   "http://localhost:7501/api/v1/commands" tt).1
        = inl ConnectionError ->
        length (list_calls
                  (trace (run (refusing_world sample_web) (resolve_sample None) tt)))
        = 1).
Proof.
  split.
  - intros H.
    destruct (H {| status_code := 502; json := None |} eq_refl)
      as [msg Hmsg]; [discriminate|].
    discriminate Hmsg.
  - intros H. specialize (H eq_refl). discriminate H.
Qed.

(** Nothing listens locally in the sample web: one GET, then the lookup
    with its single list call. *)
Lemma resolve_local_failure_witness :
  list_calls (trace (run (still_world sample_web sample_listing)
                         (resolve_sample None) tt))
  = [EvListInstances tt "p1" (inr sample_listing)]
  /\ directory_calls
       (trace (run (still_world
                      (local_web {| status_code := 404; json := Some "{}" |}) [])
                   (resolve_sample None) tt))
     = [].
Proof.
  split.
  - apply (proj2 (proj2 (proj1 (resolve_local_failure (fun j => j) quoted 7501
                    (still_world sample_web sample_listing) tt) eq_refl))
             tt {| project_id := "p1" |} (inr sample_listing) tt tt tt);
      reflexivity.
  - apply (proj2 (resolve_local_failure (fun j => j) quoted 7501
                    (still_world
                       (local_web {| status_code := 404; json := Some "{}" |}) [])
                    tt)
             {| status_code := 404; json := Some "{}" |});
      [reflexivity|discriminate].
Defined.

(** A local application on port 7501 answers: its URL and manifest are
    returned and the world has served one call. *)
Lemma resolve_local_instance_witness :
  run (counting_world (local_web {| status_code := 200; json := Some "{}" |})
                      sample_listing)
      (resolve_sample None) 0
  = {| outcome := inr (Some "http://localhost:7501", Some "{}");
       trace := [EvGet "http://localhost:7501/api/v1/commands"
                   (inr {| status_code := 200; json := Some "{}" |})];
       final := 1 |}.
Proof.
  apply (proj1 (resolve_local_instance (fun j => j) quoted 7501
                  (counting_world
                     (local_web {| status_code := 200; json := Some "{}" |})
                     sample_listing)
                  0 1 {| status_code := 200; json := Some "{}" |} "{}"
                  eq_refl eq_refl eq_refl)).
Defined.

(** No identifier, nothing local: the error names the listed instances,
    and no name for the empty listing. *)
Lemma resolve_absent_lists_names_witness :
  outcome (run (still_world sample_web sample_listing) (resolve_sample None) tt)
  = inl (Exception
           "Provide an application name, id or url with --app_id=X. Found ['foo', 'bar']")
  /\ outcome (run (still_world sample_web []) (resolve_sample None) tt)
     = inl (Exception
              "Provide an application name, id or url with --app_id=X. Found []").
Proof.
  split.
  - apply (proj1 (resolve_absent_lists_names (fun j => j) quoted 7501
                    (still_world sample_web sample_listing) tt tt tt tt tt tt
                    {| project_id := "p1" |} sample_listing
                    eq_refl eq_refl eq_refl eq_refl)).
  - apply (proj2 (resolve_absent_lists_names (fun j => j) quoted 7501
                    (still_world sample_web []) tt tt tt tt tt tt
                    {| project_id := "p1" |} []
                    eq_refl eq_refl eq_refl eq_refl) eq_refl).
Defined.

(** [zzz] names nothing in the listing of the specification. *)
Lemma resolve_not_found_witness :
  outcome (run (still_world sample_web sample_listing)
               (resolve_sample (Some "zzz")) tt)
  = inr (None, None).
Proof.
  apply (resolve_not_found (fun j => j) quoted 7501
           (still_world sample_web sample_listing) tt tt tt tt "zzz" tt
           {| project_id := "p1" |} sample_listing);
    try reflexivity.
  repeat constructor; discriminate.
Defined.

(** The parser on entries of each kind. *)
Lemma format_input_env_variables_spec_witness :
  (exists err, _format_input_env_variables ["foo=bar"; "bla=a=b"] = inl err) /\
  (exists err, _format_input_env_variables ["foo=bar"; "foo=baz"] = inl err) /\
  (exists d, _format_input_env_variables ["foo=bar"; "bla=bloz"] = inr d /\
     d !! "bla" = Some "bloz").
Proof.
  destruct format_input_env_variables_spec as (Hbad & _ & Hdup & Hok).
  split; [|split].
  - apply (Hbad ["foo=bar"; "bla=a=b"] "bla=a=b").
    + apply list_elem_of_In. right; left; reflexivity.
    + left. discriminate.
  - apply (Hdup ["foo=bar"; "foo=baz"] 0 1 "foo=bar" "foo=baz");
      [discriminate|reflexivity..].
  - destruct (Hok ["foo=bar"; "bla=bloz"]) as (d & Hd & Hlook).
    + repeat constructor.
      * exists "f"%char, "oo", "bar". split; reflexivity.
      * exists "b"%char, "la", "bloz". split; reflexivity.
    + apply NoDup_cons. split.
      * intros Hin. apply list_elem_of_In in Hin.
        destruct Hin as [Hin|[]]. discriminate Hin.
      * apply NoDup_singleton.
    + exists d. split; [exact Hd|]. apply Hlook.
      exists "bla=bloz". split; [|reflexivity].
      apply list_elem_of_In. right; left; reflexivity.
Defined.

(** The invalid-name error on [-a=1], after an accepted entry. *)
Lemma invalid_name_iff_first_char_witness :
  _format_input_env_variables ["x=0"; "-a=1"]
  = inl (ValueError (invalid_name_msg "-a"))
  /\ _format_input_env_variables ["a-b=1"] = inr {[ "a-b" := "1" ]}.
Proof.
  split.
  - apply (proj1 invalid_name_iff_first_char).
    exists ["x=0"], "-a=1", [], {[ "x" := "0" ]}, "-"%char, "a", "1".
    repeat split; reflexivity.
  - exact (proj2 (proj2 invalid_name_iff_first_char)).
Defined.

(** ** The further properties on samples *)

(** The names and values of an accepted list. *)
Lemma format_result_valid_witness :
  (exists c rest, "foo" = String c rest /\ name_char c = true)
  /\ count_char "=" "foo" = 0 /\ count_char "=" "bar" = 0.
Proof.
  apply (format_result_valid ["foo=bar"; "bla=bloz"]
           (<["bla" := "bloz"]> (<["foo" := "bar"]> ∅)) "foo" "bar");
    reflexivity.
Defined.

(** Two entries, two names. *)
Lemma format_result_size_witness :
  size (<["bla" := "bloz"]> (<["foo" := "bar"]> (∅ : gmap string string))) = 2.
Proof.
  apply (format_result_size ["foo=bar"; "bla=bloz"]). reflexivity.
Defined.

(** The two entries in the other order. *)
Lemma format_permutation_witness :
  _format_input_env_variables ["bla=bloz"; "foo=bar"]
  = inr (<["bla" := "bloz"]> (<["foo" := "bar"]> ∅)).
Proof.
  apply (format_permutation ["foo=bar"; "bla=bloz"] ["bla=bloz"; "foo=bar"]).
  - apply perm_swap.
  - reflexivity.
Defined.

(** The dictionary of [foo=bar] comes back from its entry. *)
Lemma format_round_trip_witness :
  _format_input_env_variables
    (entry_of <$> map_to_list ({[ "foo" := "bar" ]} : gmap string string))
  = inr {[ "foo" := "bar" ]}.
Proof.
  apply format_round_trip. intros k v [<- <-]%lookup_singleton_Some.
  split; [|split; reflexivity]. exists "f"%char, "oo". split; reflexivity.
Defined.

(** The result for [bar] was checked by the last GET. *)
Lemma resolve_result_sound_witness :
  exists resp t,
    trace (run (still_world sample_web sample_listing)
               (resolve_sample (Some "bar")) tt)
    = (t ++ [EvGet "http://x/api/v1/commands" (inr resp)])%list
    /\ status_code resp = 200%Z.
Proof.
  destruct (proj2 (resolve_result_sound (fun j => j) quoted 7501
                     (still_world sample_web sample_listing) tt (Some "bar")
                     (Some "http://x") (Some "{'commands': []}") eq_refl)
              "http://x" eq_refl)
    as (body & resp & t & _ & Ht & Hs & _).
  exists resp, t. split; assumption.
Defined.

(** [zzz] is not found: it is given and no URL. *)
Lemma resolve_not_found_only_witness :
  exists s, Some "zzz" = Some s /\ _is_url (Some s) = false.
Proof.
  destruct (resolve_not_found_only (fun j => j) quoted 7501
              (still_world sample_web sample_listing) tt (Some "zzz") eq_refl)
    as (s & Hs & Hurl & _).
  exists s. split; assumption.
Defined.

(** The directory service refuses the client: its error is raised. *)
Lemma resolve_directory_errors_propagate_witness :
  outcome (run (refusing_world sample_web) (resolve_sample (Some "foo")) tt)
  = inl (OtherError "unauthenticated")
  /\ trace (run (refusing_world sample_web) (resolve_sample (Some "foo")) tt)
     = [EvNewClient (inl (OtherError "unauthenticated"))].
Proof.
  assert ("foo" <> "") as Hne by discriminate.
  apply (proj1 (resolve_directory_errors_propagate (fun j => j) quoted 7501
                  (refusing_world sample_web) tt "foo" Hne eq_refl)
           (OtherError "unauthenticated") tt eq_refl).
Defined.

(** Nothing listens at [http://z]: the connection error is raised. *)
Lemma resolve_direct_url_failures_witness :
  outcome (run (still_world sample_web sample_listing)
               (resolve_sample (Some "http://z")) tt)
  = inl ConnectionError.
Proof.
  apply (proj1 (resolve_direct_url_failures (fun j => j) quoted 7501
                  (still_world sample_web sample_listing) tt "http://z" eq_refl)
           ConnectionError eq_refl).
Defined.

(** A local answer that is not JSON. *)
Lemma resolve_local_failures_raise_witness :
  outcome (run (still_world
                  (local_web {| status_code := 200; json := None |}) sample_listing)
               (resolve_sample None) tt)
  = inl JSONDecodeError.
Proof.
  apply (proj2 (resolve_local_failures_raise (fun j => j) quoted 7501
                  (still_world
                     (local_web {| status_code := 200; json := None |})
                     sample_listing) tt)
           {| status_code := 200; json := None |} eq_refl eq_refl).
Defined.

(** The instance [baz] is served by the broken server. *)
Lemma resolve_remote_failures_witness :
  outcome (run (still_world sample_web broken_listing)
               (resolve_sample (Some "baz")) tt)
  = inl (Exception
           "The server didn't process the request properly. Found {'detail': 'boom'}").
Proof.
  assert ("baz" <> "") as Hne by discriminate.
  assert ("http://y" <> "") as Haddr by discriminate.
  apply (proj1 (proj2 (resolve_remote_failures (fun j => j) quoted 7501
                  (still_world sample_web broken_listing) tt tt tt tt "baz" tt
                  {| project_id := "p1" |} broken_listing
                  {| Lightningapp.id := "c"; Lightningapp.name := "baz";
                     Lightningapp.status := {| Lightningapp.url := "http://y" |} |}
                  Hne eq_refl eq_refl eq_refl eq_refl eq_refl Haddr))
           {| status_code := 500; json := Some "{'detail': 'boom'}" |}
           "{'detail': 'boom'}");
    [reflexivity|discriminate|reflexivity].
Defined.

(** The local application is the result with no identifier. *)
Lemma resolve_absent_only_local_witness :
  exists resp,
    trace (run (counting_world
                  (local_web {| status_code := 200; json := Some "{}" |})
                  sample_listing)
               (resolve_sample None) 0)
    = [EvGet "http://localhost:7501/api/v1/commands" (inr resp)].
Proof.
  destruct (resolve_absent_only_local (fun j => j) quoted 7501
              (counting_world
                 (local_web {| status_code := 200; json := Some "{}" |})
                 sample_listing)
              0 (Some "http://localhost:7501", Some "{}") eq_refl)
    as (resp & body & _ & _ & _ & _ & Ht).
  exists resp. exact Ht.
Defined.

(** With no identifier and a refusing directory service, the error is that of the last call. *)
Lemma resolve_raises_only_witness :
  (exists ev,
      last (trace (run (refusing_world sample_web) (resolve_sample None) tt))
      = Some ev
      /\ raised_by ev = Some (OtherError "unauthenticated"))
  \/ OtherError "unauthenticated" = JSONDecodeError
  \/ (exists body,
        OtherError "unauthenticated"
        = Exception ("The server didn't process the request properly. Found " ++ body))
  \/ OtherError "unauthenticated"
     = Exception "The application is starting. Try in a few moments."
  \/ (exists names,
        None = None (A := string) /\
        OtherError "unauthenticated"
        = Exception ("Provide an application name, id or url with --app_id=X. Found "
                     ++ str_list quoted names)).
Proof.
  apply (resolve_raises_only (fun j => j) quoted 7501
           (refusing_world sample_web) tt None (OtherError "unauthenticated")).
  reflexivity.
Defined.

(** Three items, two of which come to the name [a]. *)
Lemma state_dict_size_witness :
  size (<["b" := 3]> (<["a" := 2]> (∅ : gmap string nat))) <= 3.
Proof.
  apply (proj1 (state_dict_size "m" 7 sample_state
                  (<["b" := 3]> (<["a" := 2]> ∅)) eq_refl)).
Defined.

(** The state of a module wrapped as [m]. *)
Lemma state_dict_strips_prefix_witness :
  ColossalAIStrategy.lightning_module_state_dict
    [("m.a", 1); ("m.b", 2)] [("m", 7)] (Some 7)
  = inr (list_to_map [("a", 1); ("b", 2)]).
Proof.
  apply (state_dict_strips_prefix "m" 7 [("a", 1); ("b", 2)]).
  - apply NoDup_cons. split.
    + intros [H|H]%elem_of_cons; [discriminate H|inversion H].
    + apply NoDup_singleton.
  - intros r [->|[->|H]%elem_of_cons]%elem_of_cons a b Heq; [| |inversion H].
    + destruct a as [|? [|? ?]]; discriminate Heq.
    + destruct a as [|? [|? ?]]; discriminate Heq.
Defined.

(** The prefix in the middle of a key. *)
Lemma state_dict_keys_witness :
  is_Some ((<["x.y" := 1]> (∅ : gmap string nat)) !! "x.y").
Proof.
  apply (proj1 (state_dict_keys "m" 7 [("x.m.y", 1)] (<["x.y" := 1]> ∅)
                  "x.m.y" 1 eq_refl ltac:(left))).
Defined.
